(** * scripts/generate_entsoe_area_map.py

    A shallow embedding of the ENTSO-E area map generator and the proofs of
    its specification.

    Conventions of the model.
    - A Python [str] is a [string]; its characters are the code points 0..255
      and the character classes are those of Python on ASCII text
      ([str.isalpha], [str.isdigit], [str.isspace], [str.upper] restricted to
      code points below 128; a character above 127 is in no class and is its
      own upper case).
    - [result] / [area_map], a [defaultdict(list)], is a [gmap string (list
      string)]; the dict [FORCE_ISO] is a [gmap string string].
    - The XML document is an element tree with tags in Clark notation, as
      [xml.etree.ElementTree] stores them; a decoded JSON document is a value
      of [json].
    - Printing, the written file and uncaught exceptions are threaded through
      a small monad [io]; what the file system and the parsers answer (a
      source that cannot be loaded or parsed, a merge file that is missing,
      unreadable or not JSON, an output path that cannot be written) is part
      of the input. *)

From stdpp Require Import gmap strings list fin_maps sorting pretty.
From Stdlib Require Import Ascii NArith.

Set Warnings "-register-all".

Local Open Scope N_scope.

(** ** Characters and the [str] methods the script calls *)

Module Char.

Definition code (c : ascii) : N := N_of_ascii c.

Definition between (lo hi : N) (c : ascii) : bool :=
  (lo <=? code c) && (code c <=? hi).

Definition islower (c : ascii) : bool := between 97 122 c.
Definition isupper (c : ascii) : bool := between 65 90 c.
Definition isalpha (c : ascii) : bool := isupper c || islower c.
Definition isdigit (c : ascii) : bool := between 48 57 c.

(** [str.isspace] on ASCII: TAB, LF, VT, FF, CR, FS, GS, RS, US, SPACE. *)
Definition isspace (c : ascii) : bool := between 9 13 c || between 28 32 c.

Definition upper (c : ascii) : ascii :=
  if islower c then ascii_of_N (code c - 32) else c.

End Char.

Local Close Scope N_scope.

Module Str.

Fixpoint map (f : ascii → ascii) (s : string) : string :=
  match s with
  | EmptyString => EmptyString
  | String c s' => String (f c) (map f s')
  end.

Fixpoint filter (p : ascii → bool) (s : string) : string :=
  match s with
  | EmptyString => EmptyString
  | String c s' => if p c then String c (filter p s') else filter p s'
  end.

Fixpoint all (p : ascii → bool) (s : string) : bool :=
  match s with
  | EmptyString => true
  | String c s' => p c && all p s'
  end.

Fixpoint mem (c : ascii) (chars : string) : bool :=
  match chars with
  | EmptyString => false
  | String d chars' => bool_decide (c = d) || mem c chars'
  end.

(** [bool(s)]: a string is truthy when it is not empty. *)
Definition nonempty (s : string) : bool :=
  match s with EmptyString => false | String _ _ => true end.

(** [s.upper()] *)
Definition upper (s : string) : string := map Char.upper s.

(** [s.isalpha()]: every character alphabetic and at least one character. *)
Definition isalpha (s : string) : bool := nonempty s && all Char.isalpha s.

(** [s[i].isdigit()] for an index the caller has checked to be in range. *)
Definition isdigit_at (i : nat) (s : string) : bool :=
  match String.get i s with Some c => Char.isdigit c | None => false end.

(** [s[i:j]] for [0 <= i <= j]; a slice is cut at the end of the string. *)
Definition slice (i j : nat) (s : string) : string :=
  String.substring i (j - i) s.

(** [s.startswith(p)] *)
Definition startswith (p s : string) : bool := String.prefix p s.

Fixpoint lstrip (p : ascii → bool) (s : string) : string :=
  match s with
  | EmptyString => EmptyString
  | String c s' => if p c then lstrip p s' else s
  end.

Fixpoint rstrip (p : ascii → bool) (s : string) : string :=
  match s with
  | EmptyString => EmptyString
  | String c s' =>
      match rstrip p s' with
      | EmptyString => if p c then EmptyString else String c EmptyString
      | r => String c r
      end
  end.

(** [s.strip(chars)] *)
Definition strip_chars (chars : string) (s : string) : string :=
  rstrip (λ c, mem c chars) (lstrip (λ c, mem c chars) s).

(** [s.strip()] *)
Definition strip (s : string) : string :=
  rstrip Char.isspace (lstrip Char.isspace s).

(** [s.split()]: the maximal runs of characters that are not whitespace.
    [cur] is the run being read, in order. *)
Fixpoint split_go (cur : string) (s : string) : list string :=
  match s with
  | EmptyString => if nonempty cur then [cur] else []
  | String c s' =>
      if Char.isspace c
      then (if nonempty cur then [cur] else []) ++ split_go EmptyString s'
      else split_go (cur +:+ String c EmptyString) s'
  end.
Definition split (s : string) : list string := split_go EmptyString s.

End Str.

(** ** Python's [or] on [Optional[str]] *)

Definition truthy (v : option string) : bool :=
  match v with
  | Some s => Str.nonempty s
  | None => false
  end.

Definition py_or (a b : option string) : option string :=
  if truthy a then a else b.

(** ** The classifier *)

Definition FORCE_ISO : gmap string string :=
  list_to_map
    [ ("10Y1001A1001A48H", "NO");
      ("10YBE----------2", "BE");
      ("10YNL----------L", "NL");
      ("10YPT-REN------W", "PT");
      ("10YFR-RTE------C", "FR");
      ("10YDE-VE-------2", "DE");
      ("10YDE-ENBW-----N", "DE");
      ("10YDE-RWENET---I", "DE");
      ("10YDE-EON------1", "DE");
      ("10YGB----------A", "GB");
      ("10YGB-NIR------Y", "GB");
      ("10YIE-1001A00010", "IE");
      ("10YCH-SWISSGRIDZ", "CH") ].

(** [[token.strip('()[]:/') for token in upper_name.split() if token]] *)
Definition tokens_of (name : string) : list string :=
  Str.strip_chars "()[]:/"
    <$> List.filter Str.nonempty (Str.split (Str.upper name)).

(** The two tests of the loop body, on one token. *)
Definition is_iso_token (token : string) : bool :=
  bool_decide (String.length token = 2) && Str.isalpha token.

Definition is_zone_token (token : string) : bool :=
  bool_decide (3 ≤ String.length token)
  && Str.isalpha (Str.slice 0 2 token)
  && Str.isdigit_at 2 token.

(** The [for token in tokens] loop of [guess_iso]. *)
Fixpoint scan_tokens (tokens : list string) : option string :=
  match tokens with
  | [] => None
  | token :: rest =>
      if is_iso_token token then Some token
      else if is_zone_token token then Some (Str.slice 0 2 token)
      else scan_tokens rest
  end.

(** The fallback on the EIC itself. *)
Definition eic_candidate (eic : string) : option string :=
  if bool_decide (5 ≤ String.length eic) && Str.startswith "10Y" eic then
    let candidate := Str.filter Char.isalpha (Str.slice 3 5 eic) in
    if bool_decide (String.length candidate = 2) then Some candidate else None
  else None.

Definition guess_iso (name eic : string) : option string :=
  match FORCE_ISO !! eic with
  | Some iso => Some iso
  | None =>
      match scan_tokens (tokens_of name) with
      | Some iso => Some iso
      | None => eic_candidate eic
      end
  end.

Definition normalise_iso (value : option string) : option string :=
  match value with
  | None => None
  | Some v =>
      if negb (Str.nonempty v) then None
      else
        let v' := Str.upper (Str.strip v) in
        if bool_decide (String.length v' = 2) then Some v' else None
  end.

(** ** The XML document *)

(** An element as [xml.etree.ElementTree] holds it: the tag in Clark notation
    ([{uri}local], or [local] outside any namespace), the text before the
    first child, and the children in document order. *)
Inductive element : Type :=
  Element (tag : string) (text : option string) (children : list element).

Definition tag (e : element) : string := let 'Element t _ _ := e in t.
Definition text (e : element) : option string := let 'Element _ t _ := e in t.
Definition children (e : element) : list element := let 'Element _ _ c := e in c.

Definition AREA_NS : string := "urn:iec62325.351:tc57wg16:451-6:area:3:0".

(** [NAMESPACES]: both prefixes name the same URI. *)
Definition NAMESPACES : gmap string string :=
  list_to_map [ ("gl", AREA_NS); ("cim", AREA_NS) ].

(** The tag a path step [prefix:local] stands for under [NAMESPACES]. *)
Definition qname (prefix local : string) : string :=
  match NAMESPACES !! prefix with
  | Some uri => "{" +:+ uri +:+ "}" +:+ local
  | None => local
  end.

Fixpoint descendants (e : element) : list element :=
  match e with
  | Element _ _ cs => flat_map (λ c, c :: descendants c) cs
  end.

(** [root.findall('.//t')]: every element below the root with tag [t], in
    document order. *)
Definition findall (t : string) (root : element) : list element :=
  List.filter (λ e, bool_decide (tag e = t)) (descendants root).

(** [e.findtext(t)]: the text of the first child with tag [t], [''] when
    that child has no text, [None] when there is no such child. *)
Definition findtext (t : string) (e : element) : option string :=
  match List.filter (λ c, bool_decide (tag c = t)) (children e) with
  | c :: _ => Some (default "" (text c))
  | [] => None
  end.

(** [a or b] on lists. *)
Definition list_or {A} (a b : list A) : list A :=
  match a with [] => b | _ => a end.

Definition find_domains (root : element) : list element :=
  let domains :=
    list_or (findall (qname "gl" "Domain") root)
            (findall (qname "cim" "Domain") root) in
  match domains with
  | [] => findall "Domain" root
  | _ => domains
  end.

(** [(a or b or '').strip()] and its four-way variant for the name. *)
Definition domain_mrid_text (domain : element) : string :=
  default ""
    (py_or (findtext (qname "gl" "mRID") domain)
       (py_or (findtext "mRID" domain) (Some ""))).

Definition domain_eic (domain : element) : string :=
  Str.strip (domain_mrid_text domain).

Definition domain_name (domain : element) : string :=
  Str.strip
    (default ""
       (py_or (findtext (qname "gl" "name") domain)
          (py_or (findtext (qname "gl" "shortName") domain)
             (py_or (findtext "name" domain)
                (py_or (findtext "shortName" domain) (Some "")))))).

(** ** The mapping under construction *)

Abbreviation area_map := (gmap string (list string)).

(** The list stored under [k]; callers read it after [getitem]. *)
Definition bucket_of (m : area_map) (k : string) : list string :=
  default [] (m !! k).

(** [m[k]] on a [defaultdict(list)]: a missing key is first bound to a fresh
    empty list. *)
Definition getitem (m : area_map) (k : string) : area_map :=
  match m !! k with
  | Some _ => m
  | None => <[k := []]> m
  end.

(** [bucket.append(c)] where [bucket] is the list stored under [k]. *)
Definition bucket_append (k c : string) (m : area_map) : area_map :=
  alter (λ b, b ++ [c]) k m.

(** [bucket = m[k]; if c not in bucket: bucket.append(c)] *)
Definition add_code (m : area_map) (k c : string) : area_map :=
  let m' := getitem m k in
  if bool_decide (c ∈ bucket_of m' k) then m' else bucket_append k c m'.

(** The body of the [for domain in domains] loop of [main]. *)
Definition record_iso (default_iso : option string) (name eic : string)
    : option string :=
  py_or (normalise_iso (guess_iso name eic)) default_iso.

Definition process_domain (default_iso : option string)
    (result : area_map) (domain : element) : area_map :=
  let eic := domain_eic domain in
  if negb (Str.nonempty eic) then result
  else
    let name := domain_name domain in
    let iso := record_iso default_iso name eic in
    if negb (truthy iso) then result
    else
      match iso with
      | Some iso => add_code result iso eic
      | None => result
      end.

Definition process_domains (default_iso : option string)
    (domains : list element) : area_map :=
  foldl (process_domain default_iso) ∅ domains.

(** ** Decoded JSON and the merge inputs *)

(** What [json.loads] returns. A number keeps its source text; an object
    keeps its members in the order [dict.items()] yields them. *)
Inductive json : Type :=
  | JNull
  | JBool (b : bool)
  | JNumber (literal : string)
  | JString (s : string)
  | JArray (elements : list json)
  | JObject (members : list (string * json)).

Inductive exn : Type :=
  | AttributeError      (* [loaded.items()] on a value that is not a dict *)
  | ReadError (msg : string)    (* [read_text] fails on an existing path *)
  | LoadError (msg : string)    (* an exception [main] does not catch while
                                   the source is loaded and parsed *)
  | WriteError (msg : string).  (* [write_text] fails on the output path *)

(** What the script meets at a path given to [--merge-existing]. *)
Inductive file_state : Type :=
  | Absent                      (* [path.exists()] is false *)
  | Unreadable (msg : string)   (* [read_text] raises *)
  | Invalid (exc : string)      (* [json.loads] raises [JSONDecodeError] *)
  | Loaded (loaded : json).

(** ** Effects: the two output streams, the written files, exceptions *)

Record world : Type := World {
  stderr : list string;
  stdout : list string;
  written : gmap string string
}.

Inductive outcome (A : Type) : Type :=
  | Return (a : A)
  | Raise (e : exn).
Arguments Return {A} a.
Arguments Raise {A} e.

Definition io (A : Type) : Type := world → outcome A * world.

Global Instance io_ret : MRet io := λ A a w, (Return a, w).
Global Instance io_bind : MBind io := λ A B f c w,
  match c w with
  | (Return a, w') => f a w'
  | (Raise e, w') => (Raise e, w')
  end.

Definition raise {A} (e : exn) : io A := λ w, (Raise e, w).

Definition print_err (line : string) : io unit := λ w,
  (Return (), World (stderr w ++ [line]) (stdout w) (written w)).

Definition print_out (line : string) : io unit := λ w,
  (Return (), World (stderr w) (stdout w ++ [line]) (written w)).

(** [path.write_text(content)]; [failure] is the exception the file system
    answers with when the path cannot be written. *)
Definition write_text (path content : string) (failure : option string)
    : io unit :=
  match failure with
  | Some msg => raise (WriteError msg)
  | None => λ w,
      (Return (), World (stderr w) (stdout w) (<[path := content]> (written w)))
  end.

Definition initial_world : world := World [] [] ∅.

(** ** The merger *)

(** The innermost loop body: [if isinstance(code, str) and code and code not
    in bucket: bucket.append(code)], with [bucket] the list under [iso_key]. *)
Definition merge_code (iso_key : string) (m : area_map) (code : json)
    : area_map :=
  match code with
  | JString c =>
      if Str.nonempty c && negb (bool_decide (c ∈ bucket_of m iso_key))
      then bucket_append iso_key c m
      else m
  | _ => m
  end.

(** The body of [for iso, codes in loaded.items()]. *)
Definition merge_member (m : area_map) (member : string * json) : area_map :=
  let iso_key := normalise_iso (Some member.1) in
  match iso_key, member.2 with
  | Some iso_key, JArray codes =>
      if Str.nonempty iso_key
      then foldl (merge_code iso_key) (getitem m iso_key) codes
      else m
  | _, _ => m
  end.

(** The body of [for path in existing_paths]. *)
Definition merge_path (m : area_map) (input : string * file_state)
    : io area_map :=
  match input.2 with
  | Absent => mret m
  | Unreadable msg => raise (ReadError msg)
  | Invalid exc =>
      print_err ("Warning: failed to parse " +:+ input.1 +:+ ": " +:+ exc);;
      mret m
  | Loaded (JObject members) => mret (foldl merge_member m members)
  | Loaded _ => raise AttributeError
  end.

Fixpoint merge_existing (m : area_map) (existing_paths : list (string * file_state))
    : io area_map :=
  match existing_paths with
  | [] => mret m
  | input :: rest => m' ← merge_path m input; merge_existing m' rest
  end.

(** ** The writer *)

(** [codes.sort()] on a list of [str]: ascending by code point, the order
    [String.le] decides. *)
Definition sort_codes (codes : list string) : list string :=
  merge_sort String.le codes.

(** The order [sorted(..., key=lambda item: item[0])] sorts the items by. *)
Definition item_le (a b : string * list string) : Prop := String.le a.1 b.1.

Global Instance item_le_dec : RelDecision item_le.
Proof. intros a b. unfold item_le. apply _. Defined.

(** [for codes in result.values(): codes.sort()] followed by
    [dict(sorted(result.items(), key=lambda item: item[0]))]: the items of
    the new dict, in its order. *)
Definition sorted_items (result : area_map) : list (string * list string) :=
  merge_sort item_le (map_to_list (sort_codes <$> result)).

Module Json.

Definition quote : ascii := ascii_of_N 34.
Definition backslash : ascii := ascii_of_N 92.
Definition newline : string := String (ascii_of_N 10) EmptyString.

Definition hex_digit (n : N) : ascii :=
  if (n <? 10)%N then ascii_of_N (48 + n) else ascii_of_N (87 + n).

(** What [json.dumps] writes for one character of a string under
    [ensure_ascii=True]. *)
Definition escape (c : ascii) : string :=
  let n := N_of_ascii c in
  let esc (d : string) := String backslash d in
  if bool_decide (c = quote) then esc (String quote EmptyString)
  else if bool_decide (c = backslash) then esc (String backslash EmptyString)
  else if bool_decide (n = 10%N) then esc "n"
  else if bool_decide (n = 13%N) then esc "r"
  else if bool_decide (n = 9%N) then esc "t"
  else if bool_decide (n = 12%N) then esc "f"
  else if bool_decide (n = 8%N) then esc "b"
  else if (32 <=? n)%N && (n <=? 126)%N then String c EmptyString
  else esc (String "u" (String "0" (String "0"
         (String (hex_digit (n / 16)) (String (hex_digit (n mod 16)) EmptyString))))).

Fixpoint escape_all (s : string) : string :=
  match s with
  | EmptyString => EmptyString
  | String c s' => escape c +:+ escape_all s'
  end.

Definition dump_str (s : string) : string :=
  String quote (escape_all s +:+ String quote EmptyString).

(** A list of strings nested one level deep, with [indent=2]. *)
Definition dump_codes (codes : list string) : string :=
  match codes with
  | [] => "[]"
  | _ =>
      "[" +:+ newline +:+ "    "
      +:+ String.concat ("," +:+ newline +:+ "    ") (dump_str <$> codes)
      +:+ newline +:+ "  ]"
  end.

Definition dump_item (item : string * list string) : string :=
  dump_str item.1 +:+ ": " +:+ dump_codes item.2.

(** [json.dumps(d, indent=2)] for a dict of lists of strings. *)
Definition dumps (items : list (string * list string)) : string :=
  match items with
  | [] => "{}"
  | _ =>
      "{" +:+ newline +:+ "  "
      +:+ String.concat ("," +:+ newline +:+ "  ") (dump_item <$> items)
      +:+ newline +:+ "}"
  end.

End Json.

(** ** [main] *)

(** What [load_source] followed by [ET.fromstring] comes to. *)
Inductive source_state : Type :=
  | Unavailable (exc : string)   (* [OSError] / [URLError] while loading *)
  | NotXml (exc : string)        (* [ET.ParseError] *)
  | Xml (root : element)
  | Failed (exc : string).       (* any other exception, e.g. the
                                    [UnicodeDecodeError] of a source that is
                                    not UTF-8: none of the two [except]
                                    clauses catches it *)

(** The parsed command line together with what the paths on it hold. A path
    is the string [Path] prints for it. *)
Record invocation : Type := MkInvocation {
  arg_source : string;
  source : source_state;
  arg_output : string;
  arg_merge_existing : option (list (string * file_state));
  arg_default_iso : option string;
  output_failure : option string   (* what writing the output path raises *)
}.

(** A command line whose output path can be written. *)
Definition Invocation (arg_source : string) (source : source_state)
    (arg_output : string)
    (arg_merge_existing : option (list (string * file_state)))
    (arg_default_iso : option string) : invocation :=
  MkInvocation arg_source source arg_output arg_merge_existing
    arg_default_iso None.

Definition NO_DOMAIN_WARNING : string :=
  "Warning: no <Domain> elements found. Check if the namespace needs updating.".

(** [if not domains: print(..., file=sys.stderr)] *)
Definition warn_if_none (domains : list element) : io unit :=
  match domains with
  | [] => print_err NO_DOMAIN_WARNING
  | _ => mret ()
  end.

(** The part of [main] from [result = defaultdict(list)] up to the end of the
    merge: the mapping that is then sorted and written. *)
Definition build (default_iso : option string) (domains : list element)
    (merge : option (list (string * file_state))) : io area_map :=
  let result := process_domains default_iso domains in
  match merge with
  | Some (input :: rest) => merge_existing result (input :: rest)
  | _ => mret result
  end.

Definition output_text (result : area_map) : string :=
  Json.dumps (sorted_items result) +:+ Json.newline.

Definition main (args : invocation) : io Z :=
  match source args with
  | Unavailable exc =>
      print_err ("Error: failed to load source " +:+ arg_source args
                 +:+ ": " +:+ exc);;
      mret 1%Z
  | NotXml exc =>
      print_err ("Error: invalid XML received from " +:+ arg_source args
                 +:+ ": " +:+ exc);;
      mret 1%Z
  | Xml root =>
      let default_iso := normalise_iso (arg_default_iso args) in
      let domains := find_domains root in
      warn_if_none domains;;
      result ← build default_iso domains (arg_merge_existing args);
      let sorted_result := sorted_items result in
      write_text (arg_output args) (output_text result)
        (output_failure args);;
      print_out ("Wrote " +:+ pretty (length sorted_result)
                 +:+ " ISO entries to " +:+ arg_output args);;
      mret 0%Z
  | Failed exc => raise (LoadError exc)
  end.

(** ** A reading of the classifier's name step in two passes

    Used only to compare with [scan_tokens]: first look for a token of two
    letters anywhere in the name, and only then for a zone token. *)
Definition two_pass_scan (tokens : list string) : option string :=
  match List.find is_iso_token tokens with
  | Some token => Some token
  | None => Str.slice 0 2 <$> List.find is_zone_token tokens
  end.

(** The first token either test of the loop accepts. *)
Definition first_match (tokens : list string) : option string :=
  List.find (λ token, is_iso_token token || is_zone_token token) tokens.

Definition code_of_token (token : string) : string :=
  if is_iso_token token then token else Str.slice 0 2 token.

(** A Domain element outside any namespace, with its two children. *)
Definition plain_domain (name eic : string) : element :=
  Element "Domain" None
    [ Element "mRID" (Some eic) []; Element "name" (Some name) [] ].

(** ** Invariants of the mapping *)

(** No code twice in one bucket. *)
Definition buckets_unique (m : area_map) : Prop :=
  map_Forall (λ _ bucket, NoDup bucket) m.

(** The mappings the program can hold: the empty one it starts from, and
    what each statement that touches the mapping makes of one it can hold. *)
Inductive reachable : area_map → Prop :=
  | reach_empty : reachable ∅
  | reach_record default_iso m domain :
      reachable m → reachable (process_domain default_iso m domain)
  | reach_getitem m k :
      reachable m → reachable (getitem m k)
  | reach_merge_code m k code :
      reachable m → reachable (merge_code k m code)
  | reach_sort m :
      reachable m → reachable (sort_codes <$> m).

(** [m'] holds every key of [m], and under each key every code [m] holds. *)
Definition extends (m m' : area_map) : Prop :=
  ∀ k b, m !! k = Some b → ∃ b', m' !! k = Some b' ∧ b ⊆ b'.

(** A member of a JSON object has nothing left to add to [m]. *)
Definition absorbed (m : area_map) (member : string * json) : Prop :=
  match normalise_iso (Some member.1), member.2 with
  | Some k, JArray codes =>
      is_Some (m !! k)
      ∧ ∀ c, JString c ∈ codes → c ≠ "" → c ∈ bucket_of m k
  | _, _ => True
  end.

(** ** Shapes of a key *)

(** What normalisation guarantees: two characters, already upper-cased and
    already trimmed. *)
Definition key_shape (k : string) : Prop :=
  String.length k = 2 ∧ Str.upper k = k ∧ Str.strip k = k.

(** An ISO-3166 alpha-2 code: two upper-case letters. *)
Definition iso_alpha2 (k : string) : Prop :=
  String.length k = 2 ∧ Str.all Char.isupper k = true.

(** The first character of [s], if any, is outside [p]. *)
Definition head_outside (p : ascii → bool) (s : string) : Prop :=
  match s with
  | EmptyString => True
  | String c _ => p c = false
  end.

(** Every key of the mapping has the shape normalisation guarantees. *)
Definition keys_normal (m : area_map) : Prop :=
  ∀ k, is_Some (m !! k) → key_shape k.

(** ** The contents of the mapping *)

(** The mapping as a relation: the set of codes under each key, without
    their order. *)
Definition contents (m : area_map) : gmap string (gset string) :=
  list_to_set <$> m.

Definition same_contents (m1 m2 : area_map) : Prop := contents m1 = contents m2.

(** The key the loop of [main] files a Domain element under, if any: it is
    read off the element and the default code, nothing else. *)
Definition filed_under (default_iso : option string) (domain : element)
    : option string :=
  let eic := domain_eic domain in
  if Str.nonempty eic then
    let iso := record_iso default_iso (domain_name domain) eic in
    if truthy iso then iso else None
  else None.

(** Two runs end alike: the same exception, or mappings with the same
    contents, and the same output either way. *)
Definition same_run (r1 r2 : outcome area_map * world) : Prop :=
  match r1, r2 with
  | (Return m1, w1), (Return m2, w2) => same_contents m1 m2 ∧ w1 = w2
  | (Raise e1, w1), (Raise e2, w2) => e1 = e2 ∧ w1 = w2
  | _, _ => False
  end.

(** The same command line over another source document. *)
Definition with_source (args : invocation) (src : source_state) : invocation :=
  MkInvocation (arg_source args) src (arg_output args)
    (arg_merge_existing args) (arg_default_iso args) (output_failure args).

(** ** Sample inputs *)

Definition sweden_root : element :=
  Element "Areas" None [ plain_domain "SE3 (Sweden)" "10Y1001A1001A46L" ].

Definition two_areas : list element :=
  [ plain_domain "DE2" "10YDE-B"; plain_domain "DE1" "10YDE-A" ].

(** ** Merge inputs that are not as expected *)

(** The line [merge_existing] prints for a file [json.loads] rejects. *)
Definition parse_warning (path exc : string) : string :=
  "Warning: failed to parse " +:+ path +:+ ": " +:+ exc.

(** The world after one more line on the error stream. *)
Definition warned (w : world) (line : string) : world :=
  World (stderr w ++ [line]) (stdout w) (written w).

(** A decoded object with one member that is not a list and one that is. *)
Definition half_wrong : json :=
  JObject [ ("DE", JString "10YDE-A"); ("SE", JArray [JString "10YSE-B"]) ].

(** ** Notions for the further properties *)

(** [isinstance(loaded, dict)], the test [merge_existing] does not make. *)
Definition is_object (j : json) : bool :=
  match j with JObject _ => true | _ => false end.

(** What a member of a decoded object puts under the key [k]. *)
Definition opens (member : string * json) (k : string) : Prop :=
  normalise_iso (Some member.1) = Some k ∧ ∃ codes, member.2 = JArray codes.

Definition contributes (member : string * json) (k c : string) : Prop :=
  normalise_iso (Some member.1) = Some k
  ∧ ∃ codes, member.2 = JArray codes ∧ JString c ∈ codes ∧ c ≠ "".

(** No key with an empty bucket. *)
Definition buckets_inhabited (m : area_map) : Prop :=
  ∀ k b, m !! k = Some b → b ≠ [].

(** Neither whitespace nor a lower-case letter. *)
Definition token_char (c : ascii) : bool :=
  negb (Char.isspace c) && negb (Char.islower c).

(** A merge input [merge_existing] gets past: a missing file, a file that is
    not JSON, or a decoded object. *)
Definition usable (state : file_state) : bool :=
  match state with
  | Absent | Invalid _ | Loaded (JObject _) => true
  | Unreadable _ | Loaded _ => false
  end.

(** The code [c] is put under the key [k] by one of the merge inputs. *)
Definition merged_from (inputs : list (string * file_state)) (k c : string)
    : Prop :=
  ∃ input members member,
    input ∈ inputs ∧ input.2 = Loaded (JObject members)
    ∧ member ∈ members ∧ contributes member k c.

(** ** What the claims say about tokens, stated without the functions of the
    classifier *)

(** One of the characters [( ) [ ] : /]. *)
Definition bracket (c : ascii) : bool :=
  bool_decide (c ∈ ["("; ")"; "["; "]"; ":"; "/"]%char).

(** Only whitespace. *)
Definition blank (s : string) : Prop := Str.all Char.isspace s = true.

(** A word: at least one character and no whitespace. *)
Definition solid (s : string) : Prop :=
  s ≠ "" ∧ Str.all (λ c, negb (Char.isspace c)) s = true.

(** Empty, or beginning with whitespace. *)
Definition at_boundary (s : string) : Prop :=
  match s with
  | EmptyString => True
  | String c _ => Char.isspace c = true
  end.

(** [words s l]: [l] lists, in order, the maximal runs of [s] that hold no
    whitespace. *)
Inductive words : string → list string → Prop :=
  | words_end gap : blank gap → words gap []
  | words_next gap word rest l :
      blank gap → solid word → at_boundary rest → words rest l →
      words (gap +:+ word +:+ rest) (word :: l).

(** The last character of [s], if any, is outside [p]. *)
Fixpoint last_outside (p : ascii → bool) (s : string) : Prop :=
  match s with
  | EmptyString => True
  | String c EmptyString => p c = false
  | String _ s' => last_outside p s'
  end.

(** [token] is [raw] without the brackets around it. *)
Definition trimmed (raw token : string) : Prop :=
  ∃ before after,
    raw = before +:+ token +:+ after
    ∧ Str.all bracket before = true ∧ Str.all bracket after = true
    ∧ head_outside bracket token ∧ last_outside bracket token.

(** Exactly two characters, both alphabetic. *)
Definition two_letters (token : string) : bool :=
  match token with
  | String a (String b EmptyString) => Char.isalpha a && Char.isalpha b
  | _ => false
  end.

(** Two alphabetic characters and then a digit, whatever follows. *)
Definition letters_digit (token : string) : bool :=
  match token with
  | String a (String b (String d _)) =>
      Char.isalpha a && Char.isalpha b && Char.isdigit d
  | _ => false
  end.

(** The first two characters of a token that has them. *)
Definition leading_two (token : string) : string :=
  match token with
  | String a (String b _) => String a (String b EmptyString)
  | _ => token
  end.

(** ** The layout of the written text, line by line *)

Module Layout.

Definition LF : ascii := "010"%char.
Definition DQ : ascii := "034"%char.
Definition BACKSLASH : ascii := "092"%char.

(** A printable ASCII character other than the double quote and the
    backslash: [json.dumps] writes it as it is. *)
Definition plain (c : ascii) : bool :=
  Char.between 32 126 c && negb (bool_decide (c = DQ))
  && negb (bool_decide (c = BACKSLASH)).

(** A string between double quotes. *)
Definition quoted (s : string) : string := String DQ (s +:+ String DQ "").

(** The codes of a bucket, one to a line, four spaces in, a comma after each
    but the last. *)
Fixpoint code_lines (atom : string → string) (codes : list string)
    : list string :=
  match codes with
  | [] => []
  | [code] => ["    " +:+ atom code]
  | code :: rest => ("    " +:+ atom code +:+ ",") :: code_lines atom rest
  end.

(** A key with its bucket, two spaces in; [comma] ends the last line. *)
Definition item_lines (atom : string → string) (comma : string)
    (item : string * list string) : list string :=
  match item.2 with
  | [] => ["  " +:+ atom item.1 +:+ ": []" +:+ comma]
  | codes =>
      ("  " +:+ atom item.1 +:+ ": [") :: code_lines atom codes
      ++ ["  ]" +:+ comma]
  end.

(** The keys in order, a comma after each but the last. *)
Fixpoint items_lines (atom : string → string)
    (items : list (string * list string)) : list string :=
  match items with
  | [] => []
  | [item] => item_lines atom "" item
  | item :: rest => item_lines atom "," item ++ items_lines atom rest
  end.

Definition lines (atom : string → string)
    (items : list (string * list string)) : list string :=
  match items with
  | [] => ["{}"]
  | _ => "{" :: items_lines atom items ++ ["}"]
  end.

(** The text of the lines: each line and then a line feed. *)
Fixpoint text (lines : list string) : string :=
  match lines with
  | [] => EmptyString
  | line :: rest => line +:+ String LF (text rest)
  end.

(** A sample text is written with [']  for the double quote. *)
Definition requote (s : string) : string :=
  Str.map (λ c, if bool_decide (c = "'"%char) then DQ else c) s.

End Layout.

Definition sample_root : element :=
  Element "Areas" None
    [ plain_domain "DE2" "10YDE-B";
      plain_domain "SE3 (Sweden)" "10Y1001A1001A46L";
      plain_domain "DE1" "10YDE-A" ].

Definition sample_run : invocation :=
  Invocation "AreaDirectory.xml" (Xml sample_root) "entsoe_area_map.json"
    (Some [ ("old.json",
             Loaded (JObject [ ("xx", JArray []);
                               ("de", JArray [ JString "10YDE-A";
                                               JString "10YDE-0" ]) ])) ])
    None.

Definition sample_text : string :=
  Layout.requote
"{
  'DE': [
    '10YDE-0',
    '10YDE-A',
    '10YDE-B'
  ],
  'SE': [
    '10Y1001A1001A46L'
  ],
  'XX': []
}
".

(** A run whose first merge input is a JSON array. *)
Definition array_run : invocation :=
  Invocation "AreaDirectory.xml" (Xml sweden_root) "entsoe_area_map.json"
    (Some [ ("old.json", Loaded (JArray [JString "10YSE-B"]));
            ("other.json",
             Loaded (JObject [("SE", JArray [JString "10YSE-B"])])) ])
    None.

(** ** Text within ASCII

    The character classes above are those of Python on the code points
    below 128; a statement that depends on them is made for such text. *)
Definition ascii_text (s : string) : Prop :=
  Str.all (λ c, (Char.code c <? 128)%N) s = true.

(** * Proofs *)

(** ** The override table *)

Lemma FORCE_ISO_entries eic iso :
  FORCE_ISO !! eic = Some iso →
  (eic, iso) ∈
    [ ("10Y1001A1001A48H", "NO"); ("10YBE----------2", "BE");
      ("10YNL----------L", "NL"); ("10YPT-REN------W", "PT");
      ("10YFR-RTE------C", "FR"); ("10YDE-VE-------2", "DE");
      ("10YDE-ENBW-----N", "DE"); ("10YDE-RWENET---I", "DE");
      ("10YDE-EON------1", "DE"); ("10YGB----------A", "GB");
      ("10YGB-NIR------Y", "GB"); ("10YIE-1001A00010", "IE");
      ("10YCH-SWISSGRIDZ", "CH") ].
Proof. apply elem_of_list_to_map_2. Qed.

Lemma FORCE_ISO_normal eic iso :
  FORCE_ISO !! eic = Some iso → normalise_iso (Some iso) = Some iso.
Proof.
  intros H%FORCE_ISO_entries.
  repeat (apply elem_of_cons in H as [H|H]; [by simplify_eq|]).
  by apply elem_of_nil in H.
Qed.

(** C4. An EIC of the override table is classified as the table says, under
    every display name; the normalised code the record is filed under is the
    table's code too. *)
Theorem guess_iso_force (name eic iso : string) :
  FORCE_ISO !! eic = Some iso →
  guess_iso name eic = Some iso
  ∧ ∀ default_iso, record_iso default_iso name eic = Some iso.
Proof.
  intros H. assert (guess_iso name eic = Some iso) as Hg.
  { unfold guess_iso. by rewrite H. }
  split; [done|]. intros default_iso. unfold record_iso.
  rewrite Hg, (FORCE_ISO_normal _ _ H).
  apply FORCE_ISO_entries in H.
  repeat (apply elem_of_cons in H as [H|H]; [by simplify_eq|]).
  by apply elem_of_nil in H.
Qed.

Lemma guess_iso_force_witness :
  guess_iso "Whatever" "10Y1001A1001A48H" = Some "NO"
  ∧ ∀ default_iso, record_iso default_iso "Whatever" "10Y1001A1001A48H" = Some "NO".
Proof. apply (guess_iso_force "Whatever" "10Y1001A1001A48H" "NO"). reflexivity. Defined.

(** ** The scan of the name *)

Lemma scan_tokens_first_match tokens :
  scan_tokens tokens = code_of_token <$> first_match tokens.
Proof.
  unfold first_match.
  induction tokens as [|token rest IH]; simpl; [done|].
  destruct (is_iso_token token) eqn:Hiso; simpl.
  { unfold code_of_token. by rewrite Hiso. }
  destruct (is_zone_token token); simpl; [|done].
  unfold code_of_token. by rewrite Hiso.
Qed.


(** ** Elementary facts on the mapping *)

Lemma nonempty_true s : Str.nonempty s = true ↔ s ≠ "".
Proof. by destruct s. Qed.

Lemma nonempty_length_2 s : String.length s = 2 → Str.nonempty s = true.
Proof. by destruct s. Qed.

Lemma normalise_iso_Some value k :
  normalise_iso value = Some k →
  ∃ v, value = Some v ∧ v ≠ "" ∧ k = Str.upper (Str.strip v)
       ∧ String.length k = 2.
Proof.
  unfold normalise_iso. destruct value as [v|]; [|done].
  destruct (Str.nonempty v) eqn:Hv; simpl; [|done].
  case_bool_decide; [|done]. intros [= <-].
  exists v. by rewrite <-nonempty_true.
Qed.

Lemma normalise_iso_truthy value k :
  normalise_iso value = Some k → truthy (Some k) = true.
Proof.
  intros (v & _ & _ & _ & Hlen)%normalise_iso_Some.
  by apply nonempty_length_2.
Qed.

Lemma getitem_lookup m k : getitem m k !! k = Some (bucket_of m k).
Proof.
  unfold getitem, bucket_of. destruct (m !! k) eqn:E; simpl.
  - by rewrite E.
  - by rewrite lookup_insert_eq.
Qed.

Lemma getitem_lookup_ne m k k' : k ≠ k' → getitem m k !! k' = m !! k'.
Proof.
  intros. unfold getitem. destruct (m !! k); [done|].
  by rewrite lookup_insert_ne.
Qed.

Lemma bucket_of_getitem m k k' : bucket_of (getitem m k) k' = bucket_of m k'.
Proof.
  unfold bucket_of at 1. destruct (decide (k = k')) as [->|].
  - by rewrite getitem_lookup.
  - by rewrite getitem_lookup_ne.
Qed.

Lemma add_code_lookup m k c :
  add_code m k c !! k
  = Some (if bool_decide (c ∈ bucket_of m k) then bucket_of m k
          else bucket_of m k ++ [c]).
Proof.
  unfold add_code, bucket_append. rewrite bucket_of_getitem.
  case_bool_decide.
  - apply getitem_lookup.
  - by rewrite lookup_alter_eq, getitem_lookup.
Qed.

Lemma add_code_lookup_ne m k c k' : k ≠ k' → add_code m k c !! k' = m !! k'.
Proof.
  intros. unfold add_code, bucket_append. case_bool_decide.
  - by apply getitem_lookup_ne.
  - rewrite lookup_alter_ne by done. by apply getitem_lookup_ne.
Qed.

Lemma add_code_elem m k c : c ∈ bucket_of (add_code m k c) k.
Proof.
  unfold bucket_of at 1. rewrite add_code_lookup. simpl.
  case_bool_decide; [done|]. apply elem_of_app. right. by left.
Qed.

(** ** Unclassified records *)

(** C5. A record with an identifier whose classification yields nothing is
    filed under the normalised default code; when there is no such code the
    mapping is left as it was. The step is a plain function of the mapping:
    it prints nothing and raises nothing. *)
Theorem unclassified_record (default_arg : option string)
    (result : area_map) (domain : element) :
  domain_eic domain ≠ "" →
  guess_iso (domain_name domain) (domain_eic domain) = None →
  match normalise_iso default_arg with
  | Some iso =>
      process_domain (normalise_iso default_arg) result domain
      = add_code result iso (domain_eic domain)
      ∧ domain_eic domain
        ∈ bucket_of (process_domain (normalise_iso default_arg) result domain) iso
  | None => process_domain (normalise_iso default_arg) result domain = result
  end.
Proof.
  intros Heic Hguess. unfold process_domain, record_iso.
  apply nonempty_true in Heic. rewrite Heic, Hguess. simpl.
  unfold py_or at 1 3 5. simpl.
  destruct (normalise_iso default_arg) as [iso|] eqn:Hd; [|done].
  rewrite (normalise_iso_truthy _ _ Hd). simpl.
  split; [done|]. apply add_code_elem.
Qed.

Lemma unclassified_record_witness :
  process_domain (normalise_iso (Some "xx")) ∅ (plain_domain "Unknown" "AREA-7")
  = add_code ∅ "XX" "AREA-7"
  ∧ "AREA-7" ∈ bucket_of
      (process_domain (normalise_iso (Some "xx")) ∅ (plain_domain "Unknown" "AREA-7"))
      "XX".
Proof.
  apply (unclassified_record (Some "xx") ∅ (plain_domain "Unknown" "AREA-7")).
  - discriminate.
  - reflexivity.
Defined.

(** ** Records without an identifier *)

Lemma lstrip_all p s : Str.all p s = true → Str.lstrip p s = "".
Proof.
  induction s as [|c s IH]; simpl; [done|].
  intros [Hc Hs]%andb_true_iff. rewrite Hc. auto.
Qed.

Lemma strip_blank s : Str.all Char.isspace s = true → Str.strip s = "".
Proof. intros H. unfold Str.strip. by rewrite lstrip_all. Qed.

Lemma process_domain_blank default_iso result domain :
  Str.all Char.isspace (domain_mrid_text domain) = true →
  process_domain default_iso result domain = result.
Proof.
  intros H. unfold process_domain, domain_eic. by rewrite strip_blank.
Qed.

(** C10. A Domain element whose identifier text (the first non-empty of its
    namespaced and plain [mRID] children, or nothing) is missing, empty or
    only whitespace leaves the mapping as it was, whatever the default code:
    the whole loop gives the same mapping with and without the element. The
    loop body prints nothing and raises nothing. *)
Theorem blank_mrid_skipped (default_iso : option string)
    (before after : list element) (result : area_map) (domain : element) :
  Str.all Char.isspace (domain_mrid_text domain) = true →
  process_domain default_iso result domain = result
  ∧ process_domains default_iso (before ++ domain :: after)
    = process_domains default_iso (before ++ after).
Proof.
  intros H. split; [by apply process_domain_blank|].
  unfold process_domains. rewrite !foldl_app. simpl.
  by rewrite process_domain_blank.
Qed.

Lemma blank_mrid_skipped_witness :
  process_domain (Some "XX") ∅ (plain_domain "Sweden SE" "   ") = ∅
  ∧ process_domains (Some "XX")
      ([plain_domain "x" "A"] ++ plain_domain "Sweden SE" "   " :: [])
    = process_domains (Some "XX") ([plain_domain "x" "A"] ++ []).
Proof.
  apply (blank_mrid_skipped (Some "XX") [plain_domain "x" "A"] [] ∅
           (plain_domain "Sweden SE" "   ")).
  reflexivity.
Defined.

(** ** Uniqueness inside the buckets *)

Lemma buckets_unique_getitem m k :
  buckets_unique m → buckets_unique (getitem m k).
Proof.
  intros H. unfold getitem. destruct (m !! k); [done|].
  apply map_Forall_insert_2; [constructor|done].
Qed.

Lemma buckets_unique_append m k c :
  c ∉ bucket_of m k → buckets_unique m → buckets_unique (bucket_append k c m).
Proof.
  intros Hc H k' b. unfold bucket_append.
  destruct (decide (k = k')) as [<-|Hne].
  - rewrite lookup_alter_eq. unfold bucket_of in Hc.
    destruct (m !! k) as [b0|] eqn:E; simpl; [|done]. intros [= <-].
    apply NoDup_app. split_and!.
    + by apply (H k).
    + intros x Hx ->%list_elem_of_singleton. done.
    + apply NoDup_singleton.
  - rewrite lookup_alter_ne by done. apply H.
Qed.

Lemma buckets_unique_add_code m k c :
  buckets_unique m → buckets_unique (add_code m k c).
Proof.
  intros H. unfold add_code. case_bool_decide.
  - by apply buckets_unique_getitem.
  - apply buckets_unique_append; [done|]. by apply buckets_unique_getitem.
Qed.

Lemma buckets_unique_process_domain default_iso m domain :
  buckets_unique m → buckets_unique (process_domain default_iso m domain).
Proof.
  intros H. unfold process_domain.
  destruct (negb _); [done|]. destruct (negb _); [done|].
  destruct (record_iso _ _ _); [|done]. by apply buckets_unique_add_code.
Qed.

Lemma buckets_unique_merge_code m k code :
  buckets_unique m → buckets_unique (merge_code k m code).
Proof.
  intros H. destruct code; simpl; try done.
  destruct (Str.nonempty s); simpl; [|done].
  case_bool_decide; simpl; [done|]. by apply buckets_unique_append.
Qed.

Lemma buckets_unique_sort m :
  buckets_unique m → buckets_unique (sort_codes <$> m).
Proof.
  intros H k b. rewrite lookup_fmap.
  destruct (m !! k) as [b0|] eqn:E; simpl; [|done]. intros [= <-].
  unfold sort_codes. rewrite merge_sort_Permutation. by apply (H k).
Qed.

Lemma reachable_unique m : reachable m → buckets_unique m.
Proof.
  induction 1.
  - apply map_Forall_empty.
  - by apply buckets_unique_process_domain.
  - by apply buckets_unique_getitem.
  - by apply buckets_unique_merge_code.
  - by apply buckets_unique_sort.
Qed.

(** What [build] returns is a mapping the program can hold. *)
Lemma reachable_foldl_process default_iso domains m :
  reachable m → reachable (foldl (process_domain default_iso) m domains).
Proof.
  revert m. induction domains as [|d ds IH]; intros m Hm; simpl; [done|].
  apply IH. by constructor.
Qed.

Lemma reachable_foldl_merge_code k codes m :
  reachable m → reachable (foldl (merge_code k) m codes).
Proof.
  revert m. induction codes as [|c cs IH]; intros m Hm; simpl; [done|].
  apply IH. by constructor.
Qed.

Lemma reachable_merge_member m member :
  reachable m → reachable (merge_member m member).
Proof.
  intros Hm. unfold merge_member.
  destruct (normalise_iso _) as [k|]; [|done].
  destruct member.2; try done.
  destruct (Str.nonempty k); [|done].
  apply reachable_foldl_merge_code. by constructor.
Qed.

Lemma reachable_foldl_merge_member members m :
  reachable m → reachable (foldl merge_member m members).
Proof.
  revert m. induction members as [|x xs IH]; intros m Hm; simpl; [done|].
  apply IH. by apply reachable_merge_member.
Qed.

Lemma reachable_merge_path m input w m' w' :
  reachable m → merge_path m input w = (Return m', w') → reachable m'.
Proof.
  intros Hm. unfold merge_path.
  destruct input.2 as [| | |[]]; try (by intros [= <- _]); try done.
  intros [= <- _]. by apply reachable_foldl_merge_member.
Qed.

Lemma reachable_merge_existing inputs m w m' w' :
  reachable m → merge_existing m inputs w = (Return m', w') → reachable m'.
Proof.
  revert m w. induction inputs as [|x xs IH]; intros m w Hm; simpl.
  { by intros [= <- _]. }
  unfold mbind, io_bind.
  destruct (merge_path m x w) as [[m1|e] w1] eqn:E; [|done].
  intros H. eapply IH; [|done]. by eapply reachable_merge_path.
Qed.

Lemma reachable_build default_iso domains merge w m' w' :
  build default_iso domains merge w = (Return m', w') → reachable m'.
Proof.
  unfold build. intros H.
  assert (reachable (process_domains default_iso domains)) as Hr.
  { apply reachable_foldl_process. constructor. }
  destruct merge as [[|x xs]|].
  - by inversion H; subst.
  - by eapply reachable_merge_existing.
  - by inversion H; subst.
Qed.

(** ** Merging a document twice *)

Lemma extends_refl m : extends m m.
Proof. intros k b H. by exists b. Qed.

Lemma extends_trans m1 m2 m3 : extends m1 m2 → extends m2 m3 → extends m1 m3.
Proof.
  intros H12 H23 k b H. destruct (H12 k b H) as (b2 & H2 & Hb).
  destruct (H23 k b2 H2) as (b3 & H3 & Hb2). exists b3. split; [done|].
  set_solver.
Qed.

Lemma extends_is_Some m m' k : extends m m' → is_Some (m !! k) → is_Some (m' !! k).
Proof. intros H [b Hb]. destruct (H k b Hb) as (b' & -> & _). by eexists. Qed.

Lemma extends_bucket m m' k c :
  extends m m' → c ∈ bucket_of m k → c ∈ bucket_of m' k.
Proof.
  intros H. unfold bucket_of. destruct (m !! k) as [b|] eqn:E; simpl.
  - destruct (H k b E) as (b' & -> & Hb). simpl. apply Hb.
  - by intros ?%elem_of_nil.
Qed.

Lemma extends_getitem m k : extends m (getitem m k).
Proof.
  unfold getitem. destruct (m !! k) eqn:E; [apply extends_refl|].
  intros k' b H. exists b. split; [|done].
  rewrite lookup_insert_ne; [done|]. congruence.
Qed.

Lemma extends_append m k c : extends m (bucket_append k c m).
Proof.
  intros k' b H. unfold bucket_append. destruct (decide (k = k')) as [<-|Hne].
  - exists (b ++ [c]). rewrite lookup_alter_eq, H. split; [done|]. set_solver.
  - exists b. by rewrite lookup_alter_ne.
Qed.

Lemma extends_merge_code m k code : extends m (merge_code k m code).
Proof.
  destruct code; simpl; try apply extends_refl.
  destruct (_ && _); [apply extends_append|apply extends_refl].
Qed.

Lemma extends_foldl_merge_code k codes m :
  extends m (foldl (merge_code k) m codes).
Proof.
  revert m. induction codes as [|c cs IH]; intros m; simpl.
  - apply extends_refl.
  - eapply extends_trans; [apply extends_merge_code|apply IH].
Qed.

Lemma extends_merge_member m member : extends m (merge_member m member).
Proof.
  unfold merge_member. destruct (normalise_iso _) as [k|]; [|apply extends_refl].
  destruct member.2; try apply extends_refl.
  destruct (Str.nonempty k); [|apply extends_refl].
  eapply extends_trans; [apply extends_getitem|apply extends_foldl_merge_code].
Qed.

Lemma extends_foldl_merge_member members m :
  extends m (foldl merge_member m members).
Proof.
  revert m. induction members as [|x xs IH]; intros m; simpl.
  - apply extends_refl.
  - eapply extends_trans; [apply extends_merge_member|apply IH].
Qed.

Lemma absorbed_extends m m' member :
  extends m m' → absorbed m member → absorbed m' member.
Proof.
  intros Hext. unfold absorbed.
  destruct (normalise_iso _) as [k|]; [|done].
  destruct member.2; try done. intros [Hk Hc]. split.
  - by eapply extends_is_Some.
  - intros c Hin Hne. eapply extends_bucket; eauto.
Qed.

Lemma merge_code_elem m k c :
  is_Some (m !! k) → c ≠ "" → c ∈ bucket_of (merge_code k m (JString c)) k.
Proof.
  intros [b Hb] Hc. simpl. apply nonempty_true in Hc. rewrite Hc. simpl.
  case_bool_decide; simpl; [done|].
  unfold bucket_of, bucket_append. rewrite lookup_alter_eq, Hb. simpl.
  set_solver.
Qed.

Lemma foldl_merge_code_elems k codes m c :
  is_Some (m !! k) → JString c ∈ codes → c ≠ "" →
  c ∈ bucket_of (foldl (merge_code k) m codes) k.
Proof.
  revert m. induction codes as [|x xs IH]; intros m Hk Hin Hc.
  { by apply elem_of_nil in Hin. }
  simpl. apply elem_of_cons in Hin as [<-|Hin].
  - eapply extends_bucket; [apply extends_foldl_merge_code|].
    by apply merge_code_elem.
  - apply IH; [|done..].
    eapply extends_is_Some; [apply extends_merge_code|done].
Qed.

Lemma merge_member_absorbed m member : absorbed (merge_member m member) member.
Proof.
  unfold absorbed, merge_member.
  destruct (normalise_iso (Some member.1)) as [k|] eqn:Hn; [|done].
  destruct member.2 as [| | | |codes|]; try done.
  rewrite (normalise_iso_truthy _ _ Hn : Str.nonempty k = true).
  assert (is_Some (getitem m k !! k)) as Hk.
  { rewrite getitem_lookup. by eexists. }
  split.
  - eapply extends_is_Some; [apply extends_foldl_merge_code|done].
  - intros c Hin Hc. by apply foldl_merge_code_elems.
Qed.

Lemma foldl_merge_code_fixed k codes m :
  (∀ c, JString c ∈ codes → c ≠ "" → c ∈ bucket_of m k) →
  foldl (merge_code k) m codes = m.
Proof.
  induction codes as [|x xs IH]; intros H; simpl; [done|].
  assert (merge_code k m x = m) as ->.
  { destruct x as [| | |c| |]; simpl; try done.
    destruct (Str.nonempty c) eqn:Hc; simpl; [|done].
    rewrite bool_decide_eq_true_2; [done|].
    apply H; [by left|by apply nonempty_true]. }
  apply IH. intros c Hin. apply H. by right.
Qed.

Lemma absorbed_fixed m member : absorbed m member → merge_member m member = m.
Proof.
  unfold absorbed, merge_member.
  destruct (normalise_iso (Some member.1)) as [k|] eqn:Hn; [|done].
  destruct member.2 as [| | | |codes|]; try done. intros [[b Hb] Hc].
  rewrite (normalise_iso_truthy _ _ Hn : Str.nonempty k = true).
  assert (getitem m k = m) as ->. { unfold getitem. by rewrite Hb. }
  by apply foldl_merge_code_fixed.
Qed.

Lemma foldl_merge_member_absorbed members m member :
  member ∈ members → absorbed (foldl merge_member m members) member.
Proof.
  revert m. induction members as [|x xs IH]; intros m Hin.
  { by apply elem_of_nil in Hin. }
  simpl. apply elem_of_cons in Hin as [->|Hin]; [|by apply IH].
  eapply absorbed_extends; [apply extends_foldl_merge_member|].
  apply merge_member_absorbed.
Qed.

Lemma foldl_merge_member_fixed members m :
  (∀ member, member ∈ members → absorbed m member) →
  foldl merge_member m members = m.
Proof.
  induction members as [|x xs IH]; intros H; simpl; [done|].
  rewrite absorbed_fixed by (apply H; by left).
  apply IH. intros member Hin. apply H. by right.
Qed.

Lemma merge_members_twice members m :
  foldl merge_member (foldl merge_member m members) members
  = foldl merge_member m members.
Proof.
  apply foldl_merge_member_fixed. intros member Hin.
  by apply foldl_merge_member_absorbed.
Qed.

(** C6. Merging a JSON object a second time changes nothing: the mapping
    after the second merge is the mapping after the first, bucket for
    bucket, and nothing is printed. Every mapping the program can hold, and
    so the one it builds and the one it sorts, has no code twice in a
    bucket. *)
Theorem merge_idempotent_buckets_unique :
  (∀ (m : area_map) path members w,
     let document := (path, Loaded (JObject members)) in
     let merged := foldl merge_member m members in
     merge_path m document w = (Return merged, w)
     ∧ merge_path merged document w = (Return merged, w)
     ∧ merge_existing m [document; document] w
       = merge_existing m [document] w)
  ∧ (∀ m, reachable m → buckets_unique m)
  ∧ (∀ default_iso domains merge w result w',
       build default_iso domains merge w = (Return result, w') →
       reachable result ∧ reachable (sort_codes <$> result)).
Proof.
  split_and!.
  - intros m path members w. cbv zeta. split_and!.
    + done.
    + unfold merge_path. simpl. unfold mret, io_ret.
      by rewrite merge_members_twice.
    + simpl. unfold mbind, io_bind, merge_path. simpl. unfold mret, io_ret.
      by rewrite merge_members_twice.
  - apply reachable_unique.
  - intros default_iso domains merge w result w' H.
    apply reachable_build in H. split; [done|]. by constructor.
Qed.

Lemma merge_idempotent_buckets_unique_witness :
  merge_existing ∅
    [ ("old.json", Loaded (JObject [("de", JArray [JString "A"; JString "A"])]));
      ("old.json", Loaded (JObject [("de", JArray [JString "A"; JString "A"])])) ]
    initial_world
  = merge_existing ∅
      [ ("old.json", Loaded (JObject [("de", JArray [JString "A"; JString "A"])])) ]
      initial_world
  ∧ buckets_unique (process_domains None two_areas).
Proof.
  destruct merge_idempotent_buckets_unique as (Hmerge & Hunique & Hbuild). split.
  - apply (Hmerge ∅ "old.json" [("de", JArray [JString "A"; JString "A"])]
             initial_world).
  - apply Hunique.
    apply (Hbuild None two_areas None initial_world
             (process_domains None two_areas) initial_world).
    reflexivity.
Defined.

(** ** Characters *)

Ltac each_char c :=
  destruct c as [[] [] [] [] [] [] [] []]; vm_compute; (reflexivity || congruence).

Lemma char_upper_idem c : Char.upper (Char.upper c) = Char.upper c.
Proof. each_char c. Qed.

Lemma char_isspace_upper c : Char.isspace (Char.upper c) = Char.isspace c.
Proof. each_char c. Qed.

Lemma char_isalpha_upper c :
  Char.isalpha c = true → Char.isupper (Char.upper c) = true.
Proof. each_char c. Qed.

Lemma char_isalpha_not_space c :
  Char.isalpha c = true → Char.isspace c = false.
Proof. each_char c. Qed.

(** ** Trimming and upper-casing *)

Lemma length_map f s : String.length (Str.map f s) = String.length s.
Proof. induction s; simpl; congruence. Qed.

Lemma upper_idem s : Str.upper (Str.upper s) = Str.upper s.
Proof.
  unfold Str.upper. induction s as [|c s IH]; simpl; [done|].
  by rewrite char_upper_idem, IH.
Qed.

Lemma lstrip_map p f s :
  (∀ c, p (f c) = p c) →
  Str.lstrip p (Str.map f s) = Str.map f (Str.lstrip p s).
Proof.
  intros H. induction s as [|c s IH]; simpl; [done|].
  rewrite H. by destruct (p c).
Qed.

Lemma rstrip_map p f s :
  (∀ c, p (f c) = p c) →
  Str.rstrip p (Str.map f s) = Str.map f (Str.rstrip p s).
Proof.
  intros H. induction s as [|c s IH]; simpl; [done|].
  rewrite IH, H. destruct (Str.rstrip p s); simpl; [|done].
  by destruct (p c).
Qed.

Lemma strip_upper s : Str.strip (Str.upper s) = Str.upper (Str.strip s).
Proof.
  unfold Str.strip, Str.upper.
  rewrite lstrip_map, rstrip_map; auto using char_isspace_upper.
Qed.

Lemma rstrip_idem p s : Str.rstrip p (Str.rstrip p s) = Str.rstrip p s.
Proof.
  induction s as [|c s IH]; simpl; [done|].
  destruct (Str.rstrip p s) as [|d r] eqn:E.
  - destruct (p c) eqn:Hc; simpl; [done|]. by rewrite Hc.
  - change (Str.rstrip p (String c (String d r))) with
      (match Str.rstrip p (String d r) with
       | EmptyString => if p c then EmptyString else String c EmptyString
       | r' => String c r'
       end).
    by rewrite IH.
Qed.

Lemma lstrip_head_outside p s : head_outside p (Str.lstrip p s).
Proof.
  induction s as [|c s IH]; simpl; [done|].
  destruct (p c) eqn:Hc; simpl; done.
Qed.

Lemma rstrip_head_outside p s :
  head_outside p s → head_outside p (Str.rstrip p s).
Proof.
  destruct s as [|c s]; simpl; [done|]. intros Hc.
  destruct (Str.rstrip p s); simpl; [by rewrite Hc|done].
Qed.

Lemma lstrip_fixed p s : head_outside p s → Str.lstrip p s = s.
Proof. destruct s as [|c s]; simpl; [done|]. by intros ->. Qed.

Lemma strip_idem s : Str.strip (Str.strip s) = Str.strip s.
Proof.
  unfold Str.strip.
  rewrite (lstrip_fixed _ (Str.rstrip _ _)).
  - apply rstrip_idem.
  - apply rstrip_head_outside, lstrip_head_outside.
Qed.

Lemma rstrip_none p s :
  Str.all (λ c, negb (p c)) s = true → Str.rstrip p s = s.
Proof.
  induction s as [|c s IH]; simpl; [done|].
  intros [Hc Hs]%andb_true_iff. rewrite (IH Hs).
  apply negb_true_iff in Hc. rewrite Hc. by destruct s.
Qed.

Lemma lstrip_none p s :
  Str.all (λ c, negb (p c)) s = true → Str.lstrip p s = s.
Proof.
  destruct s as [|c s]; simpl; [done|].
  intros [Hc _]%andb_true_iff. apply negb_true_iff in Hc. by rewrite Hc.
Qed.

Lemma all_impl (p q : ascii → bool) s :
  (∀ c, p c = true → q c = true) → Str.all p s = true → Str.all q s = true.
Proof.
  intros H. induction s as [|c s IH]; simpl; [done|].
  intros [Hc Hs]%andb_true_iff. by rewrite (H c Hc), IH.
Qed.

Lemma strip_letters s : Str.all Char.isalpha s = true → Str.strip s = s.
Proof.
  intros H. assert (Str.all (λ c, negb (Char.isspace c)) s = true) as Hs.
  { revert H. apply all_impl. intros c Hc.
    by rewrite char_isalpha_not_space. }
  unfold Str.strip. by rewrite lstrip_none, rstrip_none.
Qed.

Lemma upper_letters s :
  Str.all Char.isalpha s = true → Str.all Char.isupper (Str.upper s) = true.
Proof.
  unfold Str.upper. induction s as [|c s IH]; simpl; [done|].
  intros [Hc Hs]%andb_true_iff. by rewrite char_isalpha_upper, IH.
Qed.

Lemma all_filter p s : Str.all p (Str.filter p s) = true.
Proof.
  induction s as [|c s IH]; simpl; [done|].
  destruct (p c) eqn:Hc; simpl; [by rewrite Hc|done].
Qed.

(** ** What normalisation accepts *)

Lemma normalise_iso_iff value k :
  normalise_iso value = Some k ↔
  ∃ v, value = Some v ∧ v ≠ "" ∧ k = Str.upper (Str.strip v)
       ∧ String.length k = 2.
Proof.
  split; [apply normalise_iso_Some|].
  intros (v & -> & Hv & -> & Hlen). unfold normalise_iso.
  apply nonempty_true in Hv. rewrite Hv. simpl.
  by rewrite bool_decide_eq_true_2.
Qed.

Lemma normalise_iso_shape value k : normalise_iso value = Some k → key_shape k.
Proof.
  intros (v & _ & _ & -> & Hlen)%normalise_iso_Some. split_and!; [done|..].
  - apply upper_idem.
  - by rewrite strip_upper, strip_idem.
Qed.

(** ** What the classifier answers *)

Lemma scan_tokens_letters tokens g :
  scan_tokens tokens = Some g →
  String.length g = 2 ∧ Str.all Char.isalpha g = true.
Proof.
  induction tokens as [|token rest IH]; simpl; [done|].
  destruct (is_iso_token token) eqn:Hiso.
  { intros [= <-]. unfold is_iso_token, Str.isalpha in Hiso.
    apply andb_true_iff in Hiso as [Hlen [_ Hall]%andb_true_iff].
    by apply bool_decide_eq_true in Hlen. }
  destruct (is_zone_token token) eqn:Hzone; [|done].
  intros [= <-]. unfold is_zone_token, Str.isalpha in Hzone.
  apply andb_true_iff in Hzone as [[Hlen [_ Hall]%andb_true_iff]%andb_true_iff _].
  apply bool_decide_eq_true in Hlen. split; [|done].
  destruct token as [|a [|b [|c rest']]]; simpl in *; lia.
Qed.

Lemma eic_candidate_letters eic g :
  eic_candidate eic = Some g →
  String.length g = 2 ∧ Str.all Char.isalpha g = true.
Proof.
  unfold eic_candidate. destruct (_ && _); [|done].
  case_bool_decide; [|done]. intros [= <-]. split; [done|apply all_filter].
Qed.

Lemma guess_iso_letters name eic g :
  guess_iso name eic = Some g →
  String.length g = 2 ∧ Str.all Char.isalpha g = true.
Proof.
  unfold guess_iso. destruct (FORCE_ISO !! eic) as [iso|] eqn:Hf.
  { intros [= <-]. apply FORCE_ISO_entries in Hf.
    repeat (apply elem_of_cons in Hf as [Hf|Hf]; [by simplify_eq|]).
    by apply elem_of_nil in Hf. }
  destruct (scan_tokens _) as [iso|] eqn:Hs.
  { intros [= <-]. by eapply scan_tokens_letters. }
  apply eic_candidate_letters.
Qed.

Lemma normalise_guess_iso name eic g :
  guess_iso name eic = Some g →
  normalise_iso (Some g) = Some (Str.upper g) ∧ iso_alpha2 (Str.upper g).
Proof.
  intros [Hlen Hall]%guess_iso_letters. split.
  - apply normalise_iso_iff. exists g. split_and!; [done|..].
    + by destruct g.
    + by rewrite strip_letters.
    + unfold Str.upper. by rewrite length_map.
  - split; [unfold Str.upper; by rewrite length_map|by apply upper_letters].
Qed.

(** ** The keys of the mapping *)

Lemma keys_normal_getitem m k :
  key_shape k → keys_normal m → keys_normal (getitem m k).
Proof.
  intros Hk H k' Hs. destruct (decide (k = k')) as [<-|Hne]; [done|].
  apply H. by rewrite getitem_lookup_ne in Hs.
Qed.

Lemma keys_normal_append m k c :
  keys_normal m → keys_normal (bucket_append k c m).
Proof.
  intros H k' Hs. apply H. unfold bucket_append in Hs.
  destruct (decide (k = k')) as [<-|Hne].
  - rewrite lookup_alter_eq in Hs. by apply fmap_is_Some in Hs.
  - by rewrite lookup_alter_ne in Hs.
Qed.

Lemma keys_normal_add_code m k c :
  key_shape k → keys_normal m → keys_normal (add_code m k c).
Proof.
  intros Hk H. unfold add_code. case_bool_decide.
  - by apply keys_normal_getitem.
  - by apply keys_normal_append, keys_normal_getitem.
Qed.

Lemma record_iso_shape default_arg name eic iso :
  record_iso (normalise_iso default_arg) name eic = Some iso → key_shape iso.
Proof.
  unfold record_iso, py_or. destruct (truthy _).
  - apply normalise_iso_shape.
  - apply normalise_iso_shape.
Qed.

Lemma keys_normal_process_domain default_arg m domain :
  keys_normal m →
  keys_normal (process_domain (normalise_iso default_arg) m domain).
Proof.
  intros H. unfold process_domain.
  destruct (negb _); [done|]. destruct (negb _); [done|].
  destruct (record_iso _ _ _) as [iso|] eqn:E; [|done].
  apply keys_normal_add_code; [|done]. by eapply record_iso_shape.
Qed.

Lemma keys_normal_foldl_process default_arg domains m :
  keys_normal m →
  keys_normal (foldl (process_domain (normalise_iso default_arg)) m domains).
Proof.
  revert m. induction domains as [|d ds IH]; intros m H; simpl; [done|].
  by apply IH, keys_normal_process_domain.
Qed.

Lemma keys_normal_merge_code m k code :
  keys_normal m → keys_normal (merge_code k m code).
Proof.
  intros H. destruct code; simpl; try done.
  destruct (_ && _); [by apply keys_normal_append|done].
Qed.

Lemma keys_normal_foldl_merge_code k codes m :
  keys_normal m → keys_normal (foldl (merge_code k) m codes).
Proof.
  revert m. induction codes as [|c cs IH]; intros m H; simpl; [done|].
  by apply IH, keys_normal_merge_code.
Qed.

Lemma keys_normal_merge_member m member :
  keys_normal m → keys_normal (merge_member m member).
Proof.
  intros H. unfold merge_member.
  destruct (normalise_iso _) as [k|] eqn:Hn; [|done].
  destruct member.2; try done. destruct (Str.nonempty k); [|done].
  apply keys_normal_foldl_merge_code, keys_normal_getitem; [|done].
  by eapply normalise_iso_shape.
Qed.

Lemma keys_normal_foldl_merge_member members m :
  keys_normal m → keys_normal (foldl merge_member m members).
Proof.
  revert m. induction members as [|x xs IH]; intros m H; simpl; [done|].
  by apply IH, keys_normal_merge_member.
Qed.

Lemma keys_normal_merge_existing inputs m w m' w' :
  keys_normal m → merge_existing m inputs w = (Return m', w') → keys_normal m'.
Proof.
  revert m w. induction inputs as [|x xs IH]; intros m w Hm; simpl.
  { by intros [= <- _]. }
  unfold mbind, io_bind.
  destruct (merge_path m x w) as [[m1|e] w1] eqn:E; [|done].
  intros H. eapply IH; [|done]. revert E. unfold merge_path.
  destruct x.2 as [| | |[]]; try (by intros [= <- _]); try done.
  intros [= <- _]. by apply keys_normal_foldl_merge_member.
Qed.

Lemma keys_normal_build default_arg domains merge w m' w' :
  build (normalise_iso default_arg) domains merge w = (Return m', w') →
  keys_normal m'.
Proof.
  unfold build. intros H.
  assert (keys_normal (process_domains (normalise_iso default_arg) domains)) as Hr.
  { apply keys_normal_foldl_process. intros k Hk.
    rewrite lookup_empty in Hk. by destruct Hk. }
  destruct merge as [[|x xs]|].
  - by inversion H; subst.
  - by eapply keys_normal_merge_existing.
  - by inversion H; subst.
Qed.

Lemma sorted_items_lookup result item :
  item ∈ sorted_items result ↔
  ∃ bucket, result !! item.1 = Some bucket ∧ item.2 = sort_codes bucket.
Proof.
  unfold sorted_items. rewrite merge_sort_Permutation.
  destruct item as [k b]. rewrite elem_of_map_to_list, lookup_fmap. simpl.
  destruct (result !! k) as [b0|]; simpl; split.
  - intros [= <-]. by exists b0.
  - by intros (bucket & [= <-] & ->).
  - done.
  - by intros (bucket & ? & _).
Qed.

(** C3, as the code has it. Normalisation accepts a candidate exactly when
    it is not empty and its trimmed, upper-cased form has two characters, of
    whatever kind. Every key of the finalised mapping is such a form: two
    characters, equal to their own upper-casing and trimming. The keys that
    come from classification are two upper-case letters. *)
Theorem keys_normalised :
  (∀ value k,
     normalise_iso value = Some k ↔
     ∃ v, value = Some v ∧ v ≠ "" ∧ k = Str.upper (Str.strip v)
          ∧ String.length k = 2)
  ∧ (∀ default_arg domains merge w result w' item,
       build (normalise_iso default_arg) domains merge w = (Return result, w') →
       item ∈ sorted_items result →
       String.length item.1 = 2
       ∧ Str.upper item.1 = item.1 ∧ Str.strip item.1 = item.1)
  ∧ (∀ name eic k,
       normalise_iso (guess_iso name eic) = Some k → iso_alpha2 k).
Proof.
  split_and!.
  - apply normalise_iso_iff.
  - intros default_arg domains merge w result w' item Hb Hin.
    apply keys_normal_build in Hb. apply Hb.
    apply sorted_items_lookup in Hin as (b & -> & _). by eexists.
  - intros name eic k H.
    destruct (guess_iso name eic) as [g|] eqn:Hg; [|done].
    apply normalise_guess_iso in Hg as [Hn Hiso]. congruence.
Qed.

Lemma keys_normalised_witness :
  normalise_iso (Some " de ") = Some "DE"
  ∧ (∀ item,
       item ∈ sorted_items (process_domains (normalise_iso (Some "xx"))
                              [plain_domain "Unknown" "AREA-7"]) →
       String.length item.1 = 2
       ∧ Str.upper item.1 = item.1 ∧ Str.strip item.1 = item.1)
  ∧ iso_alpha2 "SE".
Proof.
  destruct keys_normalised as (Hn & Hkeys & Hguess). split_and!.
  - apply Hn. exists " de ". by split_and!.
  - intros item. by apply (Hkeys (Some "xx") [plain_domain "Unknown" "AREA-7"]
                             None initial_world _ initial_world item).
  - apply (Hguess "SE3 (Sweden)" "10Y1001A1001A46L"). reflexivity.
Defined.

(** C3, as stated, fails: with the default code [12] an unclassified record
    is filed under the key [12], which has no letter in it. A key [12] of a
    merged document is kept in the same way. *)
Lemma key_without_letters_counterexample :
  build (normalise_iso (Some "12")) [plain_domain "Unknown" "AREA-7"] None
        initial_world
  = (Return {[ "12" := ["AREA-7"] ]}, initial_world)
  ∧ sorted_items {[ "12" := ["AREA-7"] ]} = [("12", ["AREA-7"])]
  ∧ Str.all Char.isupper "12" = false
  ∧ ¬ iso_alpha2 "12"
  ∧ sorted_items
      (foldl merge_member ∅ [("12", JArray [JString "AREA-7"])])
    = [("12", ["AREA-7"])].
Proof.
  split_and!; try (vm_compute; reflexivity).
  intros [_ H]. vm_compute in H. discriminate.
Qed.

(** ** The written mapping *)

Global Instance item_le_total : Total item_le.
Proof. intros a b. unfold item_le. apply total, _. Qed.

Lemma sorted_items_keys_sorted result :
  Sorted String.le (sorted_items result).*1.
Proof.
  unfold sorted_items. eapply (Sorted_fmap fst item_le); [done|].
  apply Sorted_merge_sort, _.
Qed.

Lemma sorted_items_keys_unique result : NoDup (sorted_items result).*1.
Proof.
  unfold sorted_items. rewrite merge_sort_Permutation.
  apply NoDup_fst_map_to_list.
Qed.

Lemma sorted_items_keys result k :
  k ∈ (sorted_items result).*1 ↔ is_Some (result !! k).
Proof.
  rewrite list_elem_of_fmap. split.
  - intros (item & -> & (b & -> & _)%sorted_items_lookup). by eexists.
  - intros [b Hb]. exists (k, sort_codes b). split; [done|].
    apply sorted_items_lookup. by exists b.
Qed.

Lemma main_success args w w' :
  main args w = (Return 0%Z, w') →
  ∃ root result w0 w1,
    source args = Xml root
    ∧ build (normalise_iso (arg_default_iso args)) (find_domains root)
        (arg_merge_existing args) w0 = (Return result, w1)
    ∧ written w' !! arg_output args = Some (output_text result).
Proof.
  unfold main. destruct (source args) as [exc|exc|root|exc]; try done.
  intros H. exists root.
  unfold mbind, io_bind in H.
  destruct (warn_if_none (find_domains root) w) as [[[]|e] w0] eqn:Hw; [|done].
  destruct (build _ _ _ w0) as [[result|e] w1] eqn:Hb; [|done].
  destruct (output_failure args); [done|].
  exists result, w0, w1. split_and!; [done..|].
  simpl in H. injection H as <-. simpl. apply lookup_insert_eq.
Qed.

(** ** The contents of the mapping and the order of insertion *)

Lemma process_domain_filed default_iso m domain :
  process_domain default_iso m domain
  = match filed_under default_iso domain with
    | Some iso => add_code m iso (domain_eic domain)
    | None => m
    end.
Proof.
  unfold process_domain, filed_under.
  destruct (Str.nonempty _); simpl; [|done].
  destruct (truthy _) eqn:E; simpl; [|done].
  by destruct (record_iso _ _ _).
Qed.

Lemma bucket_of_contents m k c :
  c ∈ bucket_of m k ↔ c ∈ default ∅ (contents m !! k).
Proof.
  unfold bucket_of, contents. rewrite lookup_fmap.
  destruct (m !! k); simpl; [by rewrite elem_of_list_to_set|].
  by rewrite elem_of_nil, elem_of_empty.
Qed.

Lemma same_contents_bucket m1 m2 k c :
  same_contents m1 m2 → c ∈ bucket_of m1 k ↔ c ∈ bucket_of m2 k.
Proof. intros H. rewrite !bucket_of_contents. by rewrite H. Qed.

Lemma contents_getitem m k :
  contents (getitem m k)
  = match contents m !! k with Some _ => contents m | None => <[k := ∅]> (contents m) end.
Proof.
  unfold getitem, contents. rewrite lookup_fmap.
  destruct (m !! k); simpl; [done|]. by rewrite fmap_insert.
Qed.

Lemma contents_append m k c :
  contents (bucket_append k c m) = alter (λ s, s ∪ {[c]}) k (contents m).
Proof.
  unfold bucket_append, contents. apply map_eq. intros k'.
  destruct (decide (k = k')) as [<-|Hne].
  - rewrite lookup_fmap, !lookup_alter_eq, lookup_fmap.
    destruct (m !! k); simpl; [|done]. f_equal.
    rewrite list_to_set_app_L. simpl. by rewrite (right_id_L ∅ (∪)).
  - by rewrite lookup_fmap, !lookup_alter_ne, lookup_fmap.
Qed.

Lemma same_contents_getitem m1 m2 k :
  same_contents m1 m2 → same_contents (getitem m1 k) (getitem m2 k).
Proof. unfold same_contents. intros H. by rewrite !contents_getitem, H. Qed.

Lemma same_contents_append m1 m2 k c :
  same_contents m1 m2 → same_contents (bucket_append k c m1) (bucket_append k c m2).
Proof. unfold same_contents. intros H. by rewrite !contents_append, H. Qed.

Lemma same_contents_add_code m1 m2 k c :
  same_contents m1 m2 → same_contents (add_code m1 k c) (add_code m2 k c).
Proof.
  intros H. unfold add_code.
  pose proof (same_contents_getitem _ _ k H) as Hg.
  rewrite (bool_decide_ext _ _ (same_contents_bucket _ _ k c Hg)).
  case_bool_decide; [done|]. by apply same_contents_append.
Qed.

Lemma same_contents_merge_code m1 m2 k code :
  same_contents m1 m2 → same_contents (merge_code k m1 code) (merge_code k m2 code).
Proof.
  intros H. destruct code; simpl; try done.
  rewrite (bool_decide_ext _ _ (same_contents_bucket _ _ k s H)).
  destruct (_ && _); [|done]. by apply same_contents_append.
Qed.

Lemma same_contents_foldl {A} (f : area_map → A → area_map) l :
  (∀ m1 m2 x, same_contents m1 m2 → same_contents (f m1 x) (f m2 x)) →
  ∀ m1 m2, same_contents m1 m2 → same_contents (foldl f m1 l) (foldl f m2 l).
Proof.
  intros Hf. induction l as [|x l IH]; intros m1 m2 H; simpl; [done|].
  by apply IH, Hf.
Qed.

Lemma same_contents_merge_member m1 m2 member :
  same_contents m1 m2 → same_contents (merge_member m1 member) (merge_member m2 member).
Proof.
  intros H. unfold merge_member.
  destruct (normalise_iso _) as [k|]; [|done].
  destruct member.2; try done. destruct (Str.nonempty k); [|done].
  apply same_contents_foldl.
  - intros. by apply same_contents_merge_code.
  - by apply same_contents_getitem.
Qed.

Lemma same_run_merge_path m1 m2 input w :
  same_contents m1 m2 → same_run (merge_path m1 input w) (merge_path m2 input w).
Proof.
  intros H. unfold merge_path.
  destruct input.2 as [| | |[]]; simpl; try done.
  split; [|done]. apply same_contents_foldl; [|done].
  intros. by apply same_contents_merge_member.
Qed.

Lemma same_run_merge_existing inputs m1 m2 w :
  same_contents m1 m2 →
  same_run (merge_existing m1 inputs w) (merge_existing m2 inputs w).
Proof.
  revert m1 m2 w. induction inputs as [|x xs IH]; intros m1 m2 w H; simpl.
  { done. }
  unfold mbind, io_bind.
  pose proof (same_run_merge_path _ _ x w H) as Hp.
  destruct (merge_path m1 x w) as [[r1|e1] w1], (merge_path m2 x w) as [[r2|e2] w2];
    simpl in Hp; try done.
  destruct Hp as [Hr <-]. by apply IH.
Qed.

Global Instance same_contents_equiv : Equivalence same_contents.
Proof. unfold same_contents. split; [done|by intros ??|by intros ??? -> ->]. Qed.

Lemma contents_add_code m k c :
  contents (add_code m k c)
  = <[k := default ∅ (contents m !! k) ∪ {[c]}]> (contents m).
Proof.
  apply map_eq. intros k'. unfold contents.
  destruct (decide (k = k')) as [<-|Hne].
  - rewrite lookup_fmap, add_code_lookup, lookup_insert_eq, lookup_fmap. simpl.
    f_equal. unfold bucket_of. destruct (m !! k) as [b|]; simpl.
    + case_bool_decide as Hc.
      * apply set_eq. intros x. rewrite elem_of_union, elem_of_singleton,
          !elem_of_list_to_set. split; [auto|]. by intros [?| ->].
      * rewrite list_to_set_app_L. simpl. by rewrite (right_id_L ∅ (∪)).
    + by rewrite (left_id_L ∅ (∪)), (right_id_L ∅ (∪)).
  - by rewrite lookup_fmap, add_code_lookup_ne, lookup_insert_ne, lookup_fmap.
Qed.

Lemma same_contents_add_code_swap m k1 c1 k2 c2 :
  same_contents (add_code (add_code m k1 c1) k2 c2)
                (add_code (add_code m k2 c2) k1 c1).
Proof.
  unfold same_contents. rewrite !contents_add_code.
  apply map_eq. intros k.
  destruct (decide (k1 = k2)) as [->|Hne].
  - destruct (decide (k2 = k)) as [->|Hk].
    + rewrite !lookup_insert_eq. simpl. f_equal.
      by rewrite <-!(assoc_L (∪)), (comm_L (∪) {[c1]}).
    + by rewrite !lookup_insert_ne.
  - rewrite (lookup_insert_ne _ k1 k2), (lookup_insert_ne _ k2 k1) by done.
    destruct (decide (k1 = k)) as [->|Hk1].
    + rewrite lookup_insert_ne, !lookup_insert_eq by done. done.
    + rewrite (lookup_insert_ne _ k1 k) by done.
      destruct (decide (k2 = k)) as [->|Hk2].
      * by rewrite !lookup_insert_eq.
      * by rewrite !lookup_insert_ne.
Qed.

Lemma same_contents_process_domain default_iso m1 m2 domain :
  same_contents m1 m2 →
  same_contents (process_domain default_iso m1 domain)
                (process_domain default_iso m2 domain).
Proof.
  intros H. rewrite !process_domain_filed.
  destruct (filed_under _ _); [|done]. by apply same_contents_add_code.
Qed.

Lemma same_contents_process_swap default_iso m d1 d2 :
  same_contents
    (process_domain default_iso (process_domain default_iso m d1) d2)
    (process_domain default_iso (process_domain default_iso m d2) d1).
Proof.
  rewrite !process_domain_filed.
  destruct (filed_under _ d1), (filed_under _ d2); try done.
  apply same_contents_add_code_swap.
Qed.

Lemma same_contents_foldl_process default_iso domains domains' :
  domains ≡ₚ domains' →
  ∀ m1 m2, same_contents m1 m2 →
    same_contents (foldl (process_domain default_iso) m1 domains)
                  (foldl (process_domain default_iso) m2 domains').
Proof.
  induction 1 as [|d l l' _ IH|d1 d2 l|l1 l2 l3 _ IH1 _ IH2]; intros m1 m2 H; simpl.
  - done.
  - by apply IH, same_contents_process_domain.
  - apply same_contents_foldl.
    { intros. by apply same_contents_process_domain. }
    etrans; [apply same_contents_process_swap|].
    by do 2 apply same_contents_process_domain.
  - etrans; [by apply IH1|]. by apply IH2.
Qed.

Lemma sort_codes_perm b1 b2 : b1 ≡ₚ b2 → sort_codes b1 = sort_codes b2.
Proof.
  intros H. unfold sort_codes. apply (Sorted_unique String.le).
  - apply Sorted_merge_sort, _.
  - apply Sorted_merge_sort, _.
  - by rewrite !merge_sort_Permutation.
Qed.

Lemma same_contents_sorted m1 m2 :
  same_contents m1 m2 → buckets_unique m1 → buckets_unique m2 →
  sort_codes <$> m1 = sort_codes <$> m2.
Proof.
  intros H H1 H2. apply map_eq. intros k. rewrite !lookup_fmap.
  assert (contents m1 !! k = contents m2 !! k) as Hk by by rewrite H.
  unfold contents in Hk. rewrite !lookup_fmap in Hk.
  destruct (m1 !! k) as [b1|] eqn:E1, (m2 !! k) as [b2|] eqn:E2;
    simpl in *; try done.
  f_equal. apply sort_codes_perm. apply NoDup_Permutation.
  - by apply (H1 k).
  - by apply (H2 k).
  - intros x. injection Hk as Hk.
    by rewrite <-(elem_of_list_to_set (C:=gset string)), Hk, elem_of_list_to_set.
Qed.

Lemma same_contents_sorted_items m1 m2 :
  same_contents m1 m2 → reachable m1 → reachable m2 →
  sorted_items m1 = sorted_items m2.
Proof.
  intros H H1 H2. unfold sorted_items.
  by rewrite (same_contents_sorted m1 m2) by auto using reachable_unique.
Qed.

Lemma same_run_build default_iso domains domains' merge w :
  domains ≡ₚ domains' →
  same_run (build default_iso domains merge w)
           (build default_iso domains' merge w).
Proof.
  intros H. unfold build.
  assert (same_contents (process_domains default_iso domains)
            (process_domains default_iso domains')) as Hc.
  { by apply same_contents_foldl_process. }
  destruct merge as [[|x xs]|].
  - by split.
  - by apply same_run_merge_existing.
  - by split.
Qed.

Lemma filed_under_bucket default_iso domains k c :
  c ∈ bucket_of (process_domains default_iso domains) k ↔
  ∃ domain, domain ∈ domains
            ∧ filed_under default_iso domain = Some k
            ∧ domain_eic domain = c.
Proof.
  unfold process_domains.
  induction domains as [|d ds IH] using rev_ind.
  { simpl. unfold bucket_of. rewrite lookup_empty. simpl.
    rewrite elem_of_nil. split; [done|]. intros (d & []%elem_of_nil & _). }
  rewrite foldl_app. simpl. rewrite process_domain_filed.
  set (m := foldl (process_domain default_iso) ∅ ds) in *.
  assert ((∃ domain, domain ∈ ds ++ [d] ∧ filed_under default_iso domain = Some k
                     ∧ domain_eic domain = c)
          ↔ c ∈ bucket_of m k
            ∨ (filed_under default_iso d = Some k ∧ domain_eic d = c)) as ->.
  { rewrite IH. split.
    - intros (x & [Hx| ->%list_elem_of_singleton]%elem_of_app & Hf & He).
      + left. by exists x.
      + by right.
    - intros [(x & Hx & Hf & He)|[Hf He]].
      + exists x. split; [|done]. apply elem_of_app. by left.
      + exists d. split; [|done]. apply elem_of_app. right. by left. }
  destruct (filed_under default_iso d) as [iso|] eqn:Hd.
  - unfold bucket_of at 1. destruct (decide (iso = k)) as [->|Hne].
    + rewrite add_code_lookup. simpl. case_bool_decide as Hin.
      * split; [by left|]. intros [?|[_ <-]]; done.
      * rewrite elem_of_app, list_elem_of_singleton. split.
        -- intros [?| ->]; [by left|by right].
        -- intros [?|[_ <-]]; [by left|by right].
    + rewrite add_code_lookup_ne by done. fold (bucket_of m k).
      split; [by left|]. intros [?|[[= ?] _]]; done.
  - split; [by left|]. by intros [?|[? _]].
Qed.

Lemma main_reorder args root root' w :
  source args = Xml root →
  find_domains root ≡ₚ find_domains root' →
  main args w = main (with_source args (Xml root')) w.
Proof.
  intros Hs Hp. unfold main. rewrite Hs. simpl.
  set (default_iso := normalise_iso (arg_default_iso args)).
  unfold mbind, io_bind.
  assert (warn_if_none (find_domains root) = warn_if_none (find_domains root'))
    as ->.
  { destruct (find_domains root) as [|d ds], (find_domains root') as [|d' ds'];
      try done.
    - by apply Permutation_nil_cons in Hp.
    - symmetry in Hp. by apply Permutation_nil_cons in Hp. }
  destruct (warn_if_none (find_domains root') w) as [[[]|e] w0]; [|done].
  pose proof (same_run_build default_iso _ _ (arg_merge_existing args) w0 Hp) as Hb.
  destruct (build default_iso (find_domains root) _ w0) as [[r1|e1] w1] eqn:E1,
    (build default_iso (find_domains root') _ w0) as [[r2|e2] w2] eqn:E2;
    simpl in Hb; try done.
  - destruct Hb as [Hc <-]. unfold output_text.
    by rewrite (same_contents_sorted_items r1 r2)
      by eauto using reachable_build.
  - by destruct Hb as [-> ->].
Qed.

(** ** Independence of the order of the records *)

(** C9. A code stands under a key of the mapping built from the XML
    document exactly when some Domain element with that identifier is filed
    under that key, and the key an element is filed under is computed from
    the element and the default code alone. The whole run, its exit status,
    its printed lines and the bytes it writes, is the same for two documents
    whose Domain elements are the same up to their order (and so for the
    same document read twice). *)
Theorem pipeline_order_independent :
  (∀ default_iso domains k c,
     c ∈ bucket_of (process_domains default_iso domains) k ↔
     ∃ domain, domain ∈ domains
               ∧ filed_under default_iso domain = Some k
               ∧ domain_eic domain = c)
  ∧ (∀ args root root' w,
       source args = Xml root →
       find_domains root ≡ₚ find_domains root' →
       main args w = main (with_source args (Xml root')) w).
Proof.
  split.
  - apply filed_under_bucket.
  - apply main_reorder.
Qed.

Lemma pipeline_order_independent_witness :
  "10YDE-A" ∈ bucket_of (process_domains None two_areas) "DE"
  ∧ main (Invocation "a.xml" (Xml (Element "Areas" None two_areas))
            "out.json" None None) initial_world
    = main (Invocation "a.xml" (Xml (Element "Areas" None (reverse two_areas)))
              "out.json" None None) initial_world.
Proof.
  destruct pipeline_order_independent as [Hin Hmain]. split.
  - apply (Hin None two_areas "DE" "10YDE-A").
    exists (plain_domain "DE1" "10YDE-A"). split_and!; [|reflexivity..].
    apply elem_of_cons. right. apply elem_of_cons. by left.
  - apply (Hmain (Invocation "a.xml" (Xml (Element "Areas" None two_areas))
                    "out.json" None None)
                 (Element "Areas" None two_areas)
                 (Element "Areas" None (reverse two_areas))
                 initial_world); [reflexivity|].
    vm_compute. apply perm_swap.
Defined.

(** ** Merge inputs that cannot be used *)

Lemma merge_existing_app m l1 l2 w :
  merge_existing m (l1 ++ l2) w
  = match merge_existing m l1 w with
    | (Return m1, w1) => merge_existing m1 l2 w1
    | (Raise e, w1) => (Raise e, w1)
    end.
Proof.
  revert m w. induction l1 as [|x l1 IH]; intros m w; simpl; [done|].
  unfold mbind, io_bind. destruct (merge_path m x w) as [[m1|e] w1]; [|done].
  apply IH.
Qed.

Lemma merge_path_outcome m input w w0 :
  (merge_path m input w).1 = (merge_path m input w0).1.
Proof. unfold merge_path. by destruct input.2 as [| | |[]]. Qed.

Lemma merge_existing_outcome l m w w0 :
  (merge_existing m l w).1 = (merge_existing m l w0).1.
Proof.
  revert m w w0. induction l as [|x l IH]; intros m w w0; simpl; [done|].
  unfold mbind, io_bind. pose proof (merge_path_outcome m x w w0) as H.
  destruct (merge_path m x w) as [[m1|e] w1], (merge_path m x w0) as [[m2|e2] w2];
    simpl in H; simplify_eq; [apply IH|done].
Qed.

Lemma merge_path_invalid m path exc w :
  merge_path m (path, Invalid exc) w
  = (Return m, warned w (parse_warning path exc)).
Proof. done. Qed.

Lemma merge_member_skipped m member :
  normalise_iso (Some member.1) = None ∨ (∀ codes, member.2 ≠ JArray codes) →
  merge_member m member = m.
Proof.
  unfold merge_member. intros [->|H]; [done|].
  destruct (normalise_iso _); [|done].
  destruct member.2 as [| | | |codes|]; try done. by destruct (H codes).
Qed.

(** X17. A file that [json.loads] rejects costs one
    warning line and nothing else: the documents before and after it are
    merged as if it were not on the command line, with the same mapping or
    the same exception at the end. Inside a decoded object, a member whose
    key does not normalise or whose value is not a list is passed over
    without a line being printed, and the other members are merged. *)
Theorem undecodable_merge_input :
  (∀ m before path exc after w,
     (merge_existing m (before ++ (path, Invalid exc) :: after) w).1
     = (merge_existing m (before ++ after) w).1
     ∧ ∀ m1 w1,
         merge_existing m before w = (Return m1, w1) →
         merge_path m1 (path, Invalid exc) w1
         = (Return m1, warned w1 (parse_warning path exc))
         ∧ merge_existing m (before ++ (path, Invalid exc) :: after) w
           = merge_existing m1 after (warned w1 (parse_warning path exc)))
  ∧ (∀ m path before member after w,
       normalise_iso (Some member.1) = None
       ∨ (∀ codes, member.2 ≠ JArray codes) →
       merge_path m (path, Loaded (JObject (before ++ member :: after))) w
       = merge_path m (path, Loaded (JObject (before ++ after))) w).
Proof.
  split.
  - intros m before path exc after w. split.
    + rewrite !merge_existing_app.
      destruct (merge_existing m before w) as [[m1|e] w1]; [|done].
      simpl. unfold mbind, io_bind. rewrite merge_path_invalid.
      apply merge_existing_outcome.
    + intros m1 w1 H. split; [done|].
      rewrite merge_existing_app, H. simpl. unfold mbind, io_bind.
      by rewrite merge_path_invalid.
  - intros m path before member after w H. unfold merge_path. simpl.
    rewrite !foldl_app. simpl. by rewrite merge_member_skipped.
Qed.

(** An object with a member that is not a list: nothing is printed for it
    and its well-formed member is merged. *)
Example half_wrong_object_merged :
  merge_existing ∅ [("old.json", Loaded half_wrong)] initial_world
  = (Return {[ "SE" := ["10YSE-B"] ]}, initial_world).
Proof. vm_compute. reflexivity. Qed.

(** C2. The claim fails on the code for the document it names: a merge input
    that decodes to a JSON array reaches [loaded.items()], which is outside
    the [try], and the run ends there with [AttributeError]. No warning is
    printed, the document after it is not merged and nothing is written. *)
Theorem toplevel_array_aborts :
  main array_run initial_world = (Raise AttributeError, initial_world)
  ∧ stderr (main array_run initial_world).2 = []
  ∧ written (main array_run initial_world).2 = ∅.
Proof. split_and!; reflexivity. Qed.

Lemma undecodable_merge_input_witness :
  merge_existing ∅
    ([] ++ ("broken.json", Invalid "Expecting value: line 1 column 1 (char 0)")
        :: [("old.json", Loaded (JObject [("SE", JArray [JString "10YSE-B"])]))])
    initial_world
  = merge_existing ∅
      [("old.json", Loaded (JObject [("SE", JArray [JString "10YSE-B"])]))]
      (warned initial_world
         (parse_warning "broken.json" "Expecting value: line 1 column 1 (char 0)"))
  ∧ merge_path ∅ ("old.json", Loaded (JObject ([] ++ ("DE", JString "10YDE-A")
                     :: [("SE", JArray [JString "10YSE-B"])]))) initial_world
    = merge_path ∅ ("old.json", Loaded (JObject ([] ++
                       [("SE", JArray [JString "10YSE-B"])]))) initial_world.
Proof.
  destruct undecodable_merge_input as [Hdoc Hmember]. split.
  - apply (Hdoc ∅ [] "broken.json" "Expecting value: line 1 column 1 (char 0)").
    reflexivity.
  - apply (Hmember ∅ "old.json" [] ("DE", JString "10YDE-A")). right. done.
Defined.

(** * Further properties *)

(* --- A: normalise_iso --- *)
Lemma normalise_iso_fixed value k :
  normalise_iso value = Some k → normalise_iso (Some k) = Some k.
Proof.
  intros H. pose proof (normalise_iso_shape _ _ H) as (Hlen & Hup & Hst).
  apply normalise_iso_iff. exists k. split_and!; try done.
  - by destruct k.
  - by rewrite Hst, Hup.
Qed.

(** X1. Normalising an already normalised value changes nothing:
    normalise_iso(normalise_iso(v)) equals normalise_iso(v) for every
    value, None included. *)
Theorem normalise_iso_idempotent (value : option string) :
  normalise_iso (normalise_iso value) = normalise_iso value.
Proof.
  destruct (normalise_iso value) as [k|] eqn:H; [|done].
  by eapply normalise_iso_fixed.
Qed.

Lemma normalise_iso_alt v :
  normalise_iso (Some v)
  = let k := Str.upper (Str.strip v) in
    if bool_decide (String.length k = 2) then Some k else None.
Proof.
  unfold normalise_iso. destruct v as [|c v]; [done|done].
Qed.

Lemma rstrip_snoc p s c :
  p c = true → Str.rstrip p (s +:+ String c "") = Str.rstrip p s.
Proof.
  intros Hc. induction s as [|d s IH]; simpl; [by rewrite Hc|]. by rewrite IH.
Qed.

Lemma lstrip_snoc p s c :
  Str.lstrip p (s +:+ String c "")
  = if Str.all p s then Str.lstrip p (String c "")
    else Str.lstrip p s +:+ String c "".
Proof.
  induction s as [|d s IH]; simpl; [done|].
  destruct (p d); simpl; [done|done].
Qed.

Lemma strip_cons_space c s :
  Char.isspace c = true → Str.strip (String c s) = Str.strip s.
Proof. intros Hc. unfold Str.strip. simpl. by rewrite Hc. Qed.

Lemma strip_snoc_space c s :
  Char.isspace c = true → Str.strip (s +:+ String c "") = Str.strip s.
Proof.
  intros Hc. unfold Str.strip. rewrite lstrip_snoc.
  destruct (Str.all Char.isspace s) eqn:Hs.
  - simpl. rewrite Hc. by rewrite lstrip_all.
  - by apply rstrip_snoc.
Qed.

(** X2. Normalisation does not see the case of its argument, nor whitespace
    before or after it. *)
Theorem normalise_iso_case_and_padding (v : string) (c : ascii) :
  normalise_iso (Some (Str.upper v)) = normalise_iso (Some v)
  ∧ (Char.isspace c = true →
     normalise_iso (Some (String c v)) = normalise_iso (Some v)
     ∧ normalise_iso (Some (v +:+ String c "")) = normalise_iso (Some v)).
Proof.
  rewrite !normalise_iso_alt. split.
  - by rewrite strip_upper, upper_idem.
  - intros Hc. by rewrite strip_cons_space, strip_snoc_space.
Qed.

Lemma normalise_iso_case_and_padding_witness :
  normalise_iso (Some (Str.upper "se")) = normalise_iso (Some "se")
  ∧ normalise_iso (Some " se") = normalise_iso (Some "se")
  ∧ normalise_iso (Some "se ") = normalise_iso (Some "se").
Proof.
  destruct (normalise_iso_case_and_padding "se" " ") as [Hcase Hpad].
  split; [exact Hcase|]. apply Hpad. reflexivity.
Defined.

(** X3. For a name and an EIC within ASCII, what the classifier answers is
    never turned down by normalisation: the normalised answer is the answer
    in upper case. *)
Theorem normalise_guess_iso_upper (name eic : string) :
  ascii_text name → ascii_text eic →
  normalise_iso (guess_iso name eic) = Str.upper <$> guess_iso name eic.
Proof.
  intros _ _. destruct (guess_iso name eic) as [g|] eqn:Hg; [|done].
  by apply normalise_guess_iso in Hg as [-> _].
Qed.

Lemma normalise_guess_iso_upper_witness :
  normalise_iso (guess_iso "Sverige" "10Yse-1234") = Some "SE".
Proof.
  exact (normalise_guess_iso_upper "Sverige" "10Yse-1234" eq_refl eq_refl).
Defined.

(** ** Merge inputs at the edges *)

(** X6. A path that does not exist is passed over: nothing is printed and the
    other documents are merged as if it had not been given. *)
Theorem absent_merge_input (m : area_map) (before after : list (string * file_state))
    (path : string) (w : world) :
  merge_existing m (before ++ (path, Absent) :: after) w
  = merge_existing m (before ++ after) w.
Proof.
  rewrite !merge_existing_app.
  by destruct (merge_existing m before w) as [[m1|e] w1].
Qed.

(** X7. A document that decodes to anything but an object ends the merge with
    [AttributeError] as soon as it is reached: the documents after it are
    never read. *)
Theorem non_object_merge_input (m m1 : area_map)
    (before after : list (string * file_state)) (path : string) (j : json)
    (w w1 : world) :
  is_object j = false →
  merge_existing m before w = (Return m1, w1) →
  merge_existing m (before ++ (path, Loaded j) :: after) w
  = (Raise AttributeError, w1).
Proof.
  intros Hj Hb. rewrite merge_existing_app, Hb. simpl.
  unfold mbind, io_bind, merge_path. simpl. by destruct j.
Qed.

Lemma non_object_merge_input_witness :
  merge_existing ∅
    ([("gone.json", Absent)] ++ ("old.json", Loaded (JArray [JString "A"]))
       :: [("later.json", Invalid "Expecting value")])
    initial_world
  = (Raise AttributeError, initial_world).
Proof.
  apply (non_object_merge_input ∅ ∅ [("gone.json", Absent)]
           [("later.json", Invalid "Expecting value")] "old.json"
           (JArray [JString "A"]) initial_world initial_world);
    reflexivity.
Defined.

(** ** What [main] writes and when *)

Lemma merge_path_streams m input w r w' :
  merge_path m input w = (r, w') →
  stdout w' = stdout w ∧ written w' = written w.
Proof.
  unfold merge_path.
  destruct input.2 as [| | |[]]; intros [= <- <-]; done.
Qed.

Lemma merge_existing_streams inputs m w r w' :
  merge_existing m inputs w = (r, w') →
  stdout w' = stdout w ∧ written w' = written w.
Proof.
  revert m w. induction inputs as [|x xs IH]; intros m w; simpl.
  { by intros [= <- <-]. }
  unfold mbind, io_bind.
  destruct (merge_path m x w) as [[m1|e] w1] eqn:E.
  - intros H. apply IH in H as [-> ->]. by eapply merge_path_streams.
  - intros [= <- <-]. by eapply merge_path_streams.
Qed.

Lemma build_streams default_iso domains merge w r w' :
  build default_iso domains merge w = (r, w') →
  stdout w' = stdout w ∧ written w' = written w.
Proof.
  unfold build. destruct merge as [[|x xs]|]; try by intros [= <- <-].
  apply merge_existing_streams.
Qed.

Lemma warn_if_none_streams domains w r w' :
  warn_if_none domains w = (r, w') →
  r = Return () ∧ stdout w' = stdout w ∧ written w' = written w.
Proof. destruct domains; by intros [= <- <-]. Qed.



(** X15. Status 1 is the status of a source whose loading raised [OSError]
    or [URLError], or whose text is not XML, and of nothing else (any other
    exception is not caught); such a run prints exactly one line, on the
    error stream, and does nothing else. *)
Theorem main_status_1 (args : invocation) (w : world) :
  ((∃ w', main args w = (Return 1%Z, w')) ↔
   (∃ exc, source args = Unavailable exc ∨ source args = NotXml exc))
  ∧ ((∃ exc, source args = Unavailable exc ∨ source args = NotXml exc) →
     ∃ line, main args w = (Return 1%Z, warned w line)).
Proof.
  unfold main. destruct (source args) as [exc|exc|root|exc].
  - split; [split|]; intros _; eexists; eauto.
  - split; [split|]; intros _; eexists; eauto.
  - split; [split|]; [|by intros [? [?|?]]..].
    intros [w' H]. exfalso. revert H. unfold mbind, io_bind.
    destruct (warn_if_none _ w) as [[[]|?] ?]; [|done].
    destruct (build _ _ _ _) as [[?|?] ?]; [|done].
    by destruct (output_failure args).
  - split; [split|]; [by intros [? ?]|by intros [? [?|?]]..].
Qed.

Lemma main_status_1_witness :
  ∃ line,
    main (Invocation "a.xml" (NotXml "no element found") "out.json" None None)
         initial_world
    = (Return 1%Z, warned initial_world line).
Proof.
  apply (main_status_1
           (Invocation "a.xml" (NotXml "no element found") "out.json" None None)
           initial_world).
  exists "no element found". by right.
Defined.

(** ** The Domain elements of a document *)

Lemma qname_gl_cim local : qname "cim" local = qname "gl" local.
Proof. reflexivity. Qed.

(** X13. The two prefixes name one namespace, so the second namespaced lookup
    finds nothing the first did not: the Domain elements are the namespaced
    ones when there are any, and the plain ones otherwise, never a mix. *)
Theorem find_domains_one_kind (root : element) :
  find_domains root
  = list_or (findall (qname "gl" "Domain") root) (findall "Domain" root)
  ∧ (∃ t, (t = qname "gl" "Domain" ∨ t = "Domain")
          ∧ ∀ domain, domain ∈ find_domains root →
              tag domain = t ∧ domain ∈ descendants root).
Proof.
  assert (find_domains root
          = list_or (findall (qname "gl" "Domain") root) (findall "Domain" root))
    as Heq.
  { unfold find_domains. rewrite qname_gl_cim.
    by destruct (findall (qname "gl" "Domain") root). }
  split; [done|]. rewrite Heq. unfold findall.
  destruct (List.filter _ (descendants root)) as [|d ds] eqn:Hq; simpl.
  - exists "Domain". split; [by right|]. intros domain Hin.
    apply list_elem_of_In, filter_In in Hin as [Hin Ht].
    apply bool_decide_eq_true in Ht. split; [done|]. by apply list_elem_of_In.
  - exists (qname "gl" "Domain"). split; [by left|]. intros domain Hin.
    rewrite <-Hq in Hin.
    apply list_elem_of_In, filter_In in Hin as [Hin Ht].
    apply bool_decide_eq_true in Ht. split; [done|]. by apply list_elem_of_In.
Qed.

(** ** A Domain element twice in a row *)

Lemma add_code_twice m k c : add_code (add_code m k c) k c = add_code m k c.
Proof.
  apply map_eq. intros k'. destruct (decide (k = k')) as [<-|Hne].
  - rewrite !add_code_lookup. f_equal.
    assert (c ∈ bucket_of (add_code m k c) k) as Hin by apply add_code_elem.
    rewrite (bool_decide_eq_true_2 _ Hin).
    unfold bucket_of. by rewrite add_code_lookup.
  - by rewrite !add_code_lookup_ne.
Qed.

Lemma process_domain_twice (default_iso : option string) (m : area_map)
    (domain : element) :
  process_domain default_iso (process_domain default_iso m domain) domain
  = process_domain default_iso m domain.
Proof.
  rewrite !process_domain_filed. destruct (filed_under _ _); [|done].
  apply add_code_twice.
Qed.


Lemma getitem_is_Some m k k' :
  is_Some (getitem m k !! k') ↔ is_Some (m !! k') ∨ k' = k.
Proof.
  destruct (decide (k = k')) as [<-|Hne].
  - rewrite getitem_lookup. split; [by right|by eexists].
  - rewrite getitem_lookup_ne by done. split; [by left|]. by intros [?|?].
Qed.

Lemma append_is_Some m k c k' :
  is_Some (bucket_append k c m !! k') ↔ is_Some (m !! k').
Proof.
  unfold bucket_append. destruct (decide (k = k')) as [<-|Hne].
  - by rewrite lookup_alter_eq, fmap_is_Some.
  - by rewrite lookup_alter_ne.
Qed.

Lemma merge_code_is_Some m k code k' :
  is_Some (merge_code k m code !! k') ↔ is_Some (m !! k').
Proof.
  destruct code; simpl; try done.
  destruct (_ && _); [apply append_is_Some|done].
Qed.

Lemma foldl_merge_code_is_Some k codes m k' :
  is_Some (foldl (merge_code k) m codes !! k') ↔ is_Some (m !! k').
Proof.
  revert m. induction codes as [|c cs IH]; intros m; simpl; [done|].
  by rewrite IH, merge_code_is_Some.
Qed.

Lemma bucket_of_append m k c k' :
  is_Some (m !! k) →
  bucket_of (bucket_append k c m) k'
  = if decide (k = k') then bucket_of m k ++ [c] else bucket_of m k'.
Proof.
  intros [b Hb]. unfold bucket_of, bucket_append. case_decide as Hk.
  - subst k'. by rewrite lookup_alter_eq, Hb.
  - by rewrite lookup_alter_ne.
Qed.

Lemma merge_code_bucket m k code k' x :
  is_Some (m !! k) →
  x ∈ bucket_of (merge_code k m code) k' ↔
  x ∈ bucket_of m k' ∨ (k' = k ∧ code = JString x ∧ x ≠ "").
Proof.
  intros Hk. destruct code as [| | |c| |]; simpl;
    try (split; [by left|by intros [?|(_ & ? & _)]]).
  destruct (Str.nonempty c) eqn:Hc; simpl.
  - apply nonempty_true in Hc. case_bool_decide as Hin; simpl.
    + split; [by left|]. intros [?|(-> & [= ->] & _)]; done.
    + rewrite bucket_of_append by done. case_decide as Hkk.
      * subst k'. rewrite elem_of_app, list_elem_of_singleton. split.
        -- intros [?| ->]; [by left|by right].
        -- intros [?|(_ & [= ->] & _)]; [by left|by right].
      * split; [by left|]. intros [?|(-> & _)]; done.
  - split; [by left|]. intros [?|(_ & [= ->] & Hx)]; [done|].
    by destruct x.
Qed.

Lemma foldl_merge_code_bucket k codes m k' x :
  is_Some (m !! k) →
  x ∈ bucket_of (foldl (merge_code k) m codes) k' ↔
  x ∈ bucket_of m k' ∨ (k' = k ∧ JString x ∈ codes ∧ x ≠ "").
Proof.
  revert m. induction codes as [|c cs IH]; intros m Hk; simpl.
  { split; [by left|]. by intros [?|(_ & ?%elem_of_nil & _)]. }
  rewrite IH by by apply merge_code_is_Some.
  rewrite merge_code_bucket by done. rewrite elem_of_cons. split.
  - intros [[?|(-> & -> & ?)]|(-> & ? & ?)]; auto 6.
  - intros [?|(-> & [<-|?] & ?)]; auto 6.
Qed.

Lemma merge_member_bucket m member k x :
  x ∈ bucket_of (merge_member m member) k ↔
  x ∈ bucket_of m k ∨ contributes member k x.
Proof.
  unfold merge_member, contributes.
  destruct (normalise_iso (Some member.1)) as [iso|] eqn:Hn;
    [|split; [by left|by intros [?|[? _]]]].
  destruct member.2 as [| | | |codes|] eqn:Hv;
    try (split; [by left|by intros [?|(_ & ? & ? & _)]]).
  rewrite (normalise_iso_truthy _ _ Hn : Str.nonempty iso = true).
  rewrite foldl_merge_code_bucket by (rewrite getitem_lookup; by eexists).
  rewrite bucket_of_getitem. split.
  - intros [?|(-> & ? & ?)]; [by left|]. right. split; [done|]. by exists codes.
  - intros [?|([= ->] & cs & [= <-] & ? & ?)]; [by left|by right].
Qed.

Lemma merge_member_is_Some m member k :
  is_Some (merge_member m member !! k) ↔ is_Some (m !! k) ∨ opens member k.
Proof.
  unfold merge_member, opens.
  destruct (normalise_iso (Some member.1)) as [iso|] eqn:Hn;
    [|split; [by left|by intros [?|[? _]]]].
  destruct member.2 as [| | | |codes|] eqn:Hv;
    try (split; [by left|by intros [?|(_ & ? & ?)]]).
  rewrite (normalise_iso_truthy _ _ Hn : Str.nonempty iso = true).
  rewrite foldl_merge_code_is_Some, getitem_is_Some. split.
  - intros [?| ->]; [by left|]. right. split; [done|]. by exists codes.
  - intros [?|([= ->] & _)]; [by left|by right].
Qed.

Lemma foldl_merge_member_bucket members m k x :
  x ∈ bucket_of (foldl merge_member m members) k ↔
  x ∈ bucket_of m k ∨ ∃ member, member ∈ members ∧ contributes member k x.
Proof.
  revert m. induction members as [|y ys IH]; intros m; simpl.
  { split; [by left|]. by intros [?|(? & ?%elem_of_nil & _)]. }
  rewrite IH, merge_member_bucket. split.
  - intros [[?|?]|(y' & ? & ?)]; [by left|right..].
    + exists y. split; [by left|done].
    + exists y'. split; [by right|done].
  - intros [?|(y' & [->|?]%elem_of_cons & ?)]; [by left; left|by left; right|].
    right. by exists y'.
Qed.

Lemma foldl_merge_member_is_Some members m k :
  is_Some (foldl merge_member m members !! k) ↔
  is_Some (m !! k) ∨ ∃ member, member ∈ members ∧ opens member k.
Proof.
  revert m. induction members as [|y ys IH]; intros m; simpl.
  { split; [by left|]. by intros [?|(? & ?%elem_of_nil & _)]. }
  rewrite IH, merge_member_is_Some. split.
  - intros [[?|?]|(y' & ? & ?)]; [by left|right..].
    + exists y. split; [by left|done].
    + exists y'. split; [by right|done].
  - intros [?|(y' & [->|?]%elem_of_cons & ?)]; [by left; left|by left; right|].
    right. by exists y'.
Qed.

(** X8. What merging a decoded object comes to. A code stands under a key
    afterwards exactly when it stood there before or is a non-empty string
    of a list whose key normalises to that key; a key is present afterwards
    exactly when it was before or some member with a list normalises to it,
    be the list empty. *)
Theorem merge_object_contents (m : area_map) (members : list (string * json))
    (k : string) :
  (∀ c, c ∈ bucket_of (foldl merge_member m members) k ↔
        c ∈ bucket_of m k
        ∨ ∃ member, member ∈ members ∧ contributes member k c)
  ∧ (is_Some (foldl merge_member m members !! k) ↔
     is_Some (m !! k) ∨ ∃ member, member ∈ members ∧ opens member k).
Proof.
  split; [intros c; apply foldl_merge_member_bucket|].
  apply foldl_merge_member_is_Some.
Qed.

Lemma same_contents_intro m1 m2 :
  (∀ k, is_Some (m1 !! k) ↔ is_Some (m2 !! k)) →
  (∀ k c, c ∈ bucket_of m1 k ↔ c ∈ bucket_of m2 k) →
  same_contents m1 m2.
Proof.
  intros Hk Hc. unfold same_contents, contents. apply map_eq. intros k.
  rewrite !lookup_fmap. specialize (Hk k). specialize (Hc k).
  unfold bucket_of in Hc.
  destruct (m1 !! k) as [b1|], (m2 !! k) as [b2|]; simpl in *.
  - f_equal. apply set_eq. intros x. by rewrite !elem_of_list_to_set.
  - destruct Hk as [Hk _]. by destruct Hk.
  - destruct Hk as [_ Hk]. by destruct Hk.
  - done.
Qed.

(** X10. The members of a merged object may come in any order: the finalised
    mapping is the same. *)
Theorem merge_member_order (m : area_map) (members members' : list (string * json)) :
  reachable m →
  members ≡ₚ members' →
  sorted_items (foldl merge_member m members)
  = sorted_items (foldl merge_member m members').
Proof.
  intros Hm Hp. apply same_contents_sorted_items;
    [|by apply reachable_foldl_merge_member..].
  apply same_contents_intro.
  - intros k. rewrite !foldl_merge_member_is_Some.
    by setoid_rewrite Hp.
  - intros k c. rewrite !foldl_merge_member_bucket.
    by setoid_rewrite Hp.
Qed.

Lemma merge_member_order_witness :
  sorted_items (foldl merge_member ∅
                  [("de", JArray [JString "B"]); ("DE", JArray [JString "A"])])
  = sorted_items (foldl merge_member ∅
                    [("DE", JArray [JString "A"]); ("de", JArray [JString "B"])]).
Proof.
  apply (merge_member_order ∅).
  - constructor.
  - apply perm_swap.
Defined.

(** ** The mapping built from the XML document *)

Lemma add_code_inhabited m k c :
  buckets_inhabited m → buckets_inhabited (add_code m k c).
Proof.
  intros H k' b. destruct (decide (k = k')) as [<-|Hne].
  - rewrite add_code_lookup. intros [= <-]. case_bool_decide as Hin.
    + intros Hb. rewrite Hb in Hin. by apply elem_of_nil in Hin.
    + by destruct (bucket_of m k).
  - rewrite add_code_lookup_ne by done. apply H.
Qed.

Lemma process_domains_inhabited default_iso domains m :
  buckets_inhabited m →
  buckets_inhabited (foldl (process_domain default_iso) m domains).
Proof.
  revert m. induction domains as [|d ds IH]; intros m H; simpl; [done|].
  apply IH. rewrite process_domain_filed.
  destruct (filed_under _ _); [by apply add_code_inhabited|done].
Qed.

(** X11. The mapping built from the XML document alone has a key exactly for the
    keys some Domain element is filed under, and no bucket of it is empty. *)
Theorem process_domains_keys (default_iso : option string)
    (domains : list element) (k : string) :
  (is_Some (process_domains default_iso domains !! k) ↔
   ∃ domain, domain ∈ domains ∧ filed_under default_iso domain = Some k)
  ∧ process_domains default_iso domains !! k ≠ Some [].
Proof.
  split.
  - split.
    + intros [b Hb].
      assert (b ≠ []) as Hne.
      { eapply (process_domains_inhabited default_iso domains ∅); [|done].
        intros k' b'. by rewrite lookup_empty. }
      destruct b as [|c b]; [done|].
      assert (c ∈ bucket_of (process_domains default_iso domains) k) as Hc.
      { unfold bucket_of. rewrite Hb. by left. }
      apply filed_under_bucket in Hc as (d & Hd & Hf & _). by exists d.
    + intros (d & Hd & Hf).
      assert (domain_eic d ∈ bucket_of (process_domains default_iso domains) k)
        as Hc.
      { apply filed_under_bucket. by exists d. }
      unfold bucket_of in Hc.
      destruct (process_domains default_iso domains !! k); [by eexists|].
      by apply elem_of_nil in Hc.
  - intros Hb.
    eapply (process_domains_inhabited default_iso domains ∅); [|done..].
    intros k' b'. by rewrite lookup_empty.
Qed.

(** X9. A member of a merged object whose list holds no usable code still makes
    its key a key of the mapping, with an empty bucket when the key was not
    there. *)
Theorem merge_member_empty_list (m : area_map) (key k : string)
    (codes : list json) :
  normalise_iso (Some key) = Some k →
  (∀ c, JString c ∈ codes → c = "") →
  merge_member m (key, JArray codes) = getitem m k
  ∧ (m !! k = None → merge_member m (key, JArray codes) !! k = Some []).
Proof.
  intros Hn Hc. assert (merge_member m (key, JArray codes) = getitem m k) as ->.
  { unfold merge_member. cbn [fst snd]. rewrite Hn.
    rewrite (normalise_iso_truthy _ _ Hn : Str.nonempty k = true).
    apply foldl_merge_code_fixed. intros c Hin Hne. by destruct (Hc c Hin) in Hne. }
  split; [done|]. intros Hk. rewrite getitem_lookup. unfold bucket_of.
  by rewrite Hk.
Qed.

Lemma merge_member_empty_list_witness :
  merge_member ∅ ("xx", JArray [JNumber "1"; JString ""]) = getitem ∅ "XX"
  ∧ merge_member ∅ ("xx", JArray [JNumber "1"; JString ""]) !! "XX" = Some [].
Proof.
  destruct (merge_member_empty_list ∅ "xx" "XX" [JNumber "1"; JString ""])
    as [H1 H2].
  - reflexivity.
  - intros c Hin. apply elem_of_cons in Hin as [[=]|Hin].
    apply elem_of_cons in Hin as [[= ->]|Hin]; [done|].
    by apply elem_of_nil in Hin.
  - split; [exact H1|]. by apply H2.
Defined.

(** ** Nothing is lost in the merge *)

Lemma extends_merge_existing inputs m w m' w' :
  merge_existing m inputs w = (Return m', w') → extends m m'.
Proof.
  revert m w. induction inputs as [|x xs IH]; intros m w; simpl.
  { intros [= <- _]. apply extends_refl. }
  unfold mbind, io_bind.
  destruct (merge_path m x w) as [[m1|e] w1] eqn:E; [|done].
  intros H. eapply extends_trans; [|by eapply IH].
  revert E. unfold merge_path.
  destruct x.2 as [| | |[]]; try done; intros [= <- _];
    try apply extends_refl.
  apply extends_foldl_merge_member.
Qed.

Lemma sorted_items_elem result k c :
  c ∈ bucket_of result k ↔
  ∃ codes, (k, codes) ∈ sorted_items result ∧ c ∈ codes.
Proof.
  split.
  - unfold bucket_of. destruct (result !! k) as [b|] eqn:Hb; simpl;
      [|by intros ?%elem_of_nil].
    intros Hc. exists (sort_codes b). split.
    + apply sorted_items_lookup. by exists b.
    + unfold sort_codes. by rewrite merge_sort_Permutation.
  - intros (codes & (b & Hb & Hs)%sorted_items_lookup & Hc). simpl in *.
    subst codes. unfold bucket_of. rewrite Hb. simpl.
    unfold sort_codes in Hc. by rewrite merge_sort_Permutation in Hc.
Qed.

Lemma length_sorted_items result : length (sorted_items result) = size result.
Proof.
  unfold sorted_items. rewrite merge_sort_Permutation.
  by rewrite length_map_to_list, map_size_fmap.
Qed.

(** ** A repeated Domain element *)

Lemma add_code_present m k c : c ∈ bucket_of m k → add_code m k c = m.
Proof.
  intros Hc. unfold add_code. rewrite bucket_of_getitem.
  rewrite bool_decide_eq_true_2 by done.
  unfold getitem, bucket_of in *. destruct (m !! k); [done|].
  by apply elem_of_nil in Hc.
Qed.

(** X12. A Domain element that has been processed before, anywhere in the
    document, changes nothing when it is met again. *)
Theorem repeated_domain (default_iso : option string)
    (domains : list element) (domain : element) :
  domain ∈ domains →
  process_domains default_iso (domains ++ [domain])
  = process_domains default_iso domains.
Proof.
  intros Hd. unfold process_domains. rewrite foldl_app. simpl.
  rewrite process_domain_filed.
  destruct (filed_under default_iso domain) as [k|] eqn:Hf; [|done].
  apply add_code_present. apply filed_under_bucket. by exists domain.
Qed.

Lemma repeated_domain_witness :
  process_domains None (two_areas ++ [plain_domain "DE2" "10YDE-B"])
  = process_domains None two_areas.
Proof. apply (repeated_domain None two_areas). by left. Defined.

(** ** The tokens of a name *)

Lemma all_app p a b : Str.all p (a +:+ b) = Str.all p a && Str.all p b.
Proof. induction a as [|c a IH]; simpl; [done|]. by rewrite IH, andb_assoc. Qed.

Lemma all_lstrip p q s : Str.all p s = true → Str.all p (Str.lstrip q s) = true.
Proof.
  induction s as [|c s IH]; simpl; [done|].
  intros [Hc Hs]%andb_true_iff. destruct (q c); simpl; [auto|].
  by rewrite Hc, Hs.
Qed.

Lemma all_rstrip p q s : Str.all p s = true → Str.all p (Str.rstrip q s) = true.
Proof.
  induction s as [|c s IH]; simpl; [done|].
  intros [Hc Hs]%andb_true_iff. specialize (IH Hs).
  destruct (Str.rstrip q s); simpl in *.
  - destruct (q c); simpl; [done|]. by rewrite Hc.
  - by rewrite Hc, IH.
Qed.

Lemma all_substring p n m s :
  Str.all p s = true → Str.all p (String.substring n m s) = true.
Proof.
  revert n m. induction s as [|c s IH]; intros n m; simpl.
  { by destruct n, m. }
  intros [Hc Hs]%andb_true_iff. destruct n as [|n]; [destruct m as [|m]|]; simpl.
  - done.
  - by rewrite Hc, IH.
  - by apply IH.
Qed.

Lemma char_upper_not_lower c : Char.islower (Char.upper c) = false.
Proof. each_char c. Qed.

Lemma char_upper_letter c :
  Char.isalpha c = true → Char.islower c = false → Char.isupper c = true.
Proof. unfold Char.isalpha. intros H Hl. by rewrite Hl, orb_false_r in H. Qed.

Lemma split_go_tokens cur s :
  Str.all (λ c, negb (Char.isspace c)) cur = true →
  Forall (λ t, Str.nonempty t = true
               ∧ Str.all (λ c, negb (Char.isspace c)) t = true)
         (Str.split_go cur s).
Proof.
  revert cur. induction s as [|c s IH]; intros cur Hcur; simpl.
  { destruct (Str.nonempty cur) eqn:E; [|constructor].
    constructor; [done|constructor]. }
  destruct (Char.isspace c) eqn:Hc.
  - apply Forall_app. split; [|by apply IH].
    destruct (Str.nonempty cur) eqn:E; [|constructor].
    constructor; [done|constructor].
  - apply IH. rewrite all_app, Hcur. simpl. by rewrite Hc.
Qed.

Lemma split_go_all p cur s :
  Str.all p cur = true → Str.all p s = true →
  Forall (λ t, Str.all p t = true) (Str.split_go cur s).
Proof.
  revert cur. induction s as [|c s IH]; intros cur Hcur Hs; simpl.
  { destruct (Str.nonempty cur); repeat constructor; done. }
  simpl in Hs. apply andb_true_iff in Hs as [Hc Hs].
  destruct (Char.isspace c).
  - apply Forall_app. split; [|by apply IH].
    destruct (Str.nonempty cur); repeat constructor; done.
  - apply IH; [|done]. rewrite all_app, Hcur. simpl. by rewrite Hc.
Qed.

Lemma all_upper_not_lower s :
  Str.all (λ c, negb (Char.islower c)) (Str.upper s) = true.
Proof.
  unfold Str.upper. induction s as [|c s IH]; simpl; [done|].
  by rewrite char_upper_not_lower, IH.
Qed.

Lemma all_and p q s :
  Str.all p s = true → Str.all q s = true →
  Str.all (λ c, p c && q c) s = true.
Proof.
  induction s as [|c s IH]; simpl; [done|].
  intros [-> Hp]%andb_true_iff [-> Hq]%andb_true_iff. simpl. auto.
Qed.

Lemma filter_nonempty_all l :
  Forall (λ t, Str.nonempty t = true) l → List.filter Str.nonempty l = l.
Proof. induction 1 as [|t ts Ht _ IH]; simpl; [done|]. by rewrite Ht, IH. Qed.

Lemma strip_chars_token chars t :
  Str.all (λ c, negb (Char.isspace c)) t = true →
  Str.all (λ c, negb (Char.islower c)) t = true →
  Str.all token_char (Str.strip_chars chars t) = true.
Proof.
  intros Hs Hl. unfold Str.strip_chars, token_char.
  apply all_and; by apply all_rstrip, all_lstrip.
Qed.

Lemma split_upper_nonempty name :
  List.filter Str.nonempty (Str.split (Str.upper name))
  = Str.split (Str.upper name).
Proof.
  pose proof (split_go_tokens "" (Str.upper name) eq_refl) as Hne.
  fold (Str.split (Str.upper name)) in Hne.
  apply filter_nonempty_all. eapply Forall_impl; [exact Hne|]. by intros t [? _].
Qed.

Lemma tokens_of_token_chars name :
  Forall (λ token, Str.all token_char token = true) (tokens_of name).
Proof.
  pose proof (split_go_tokens "" (Str.upper name) eq_refl) as Hne.
  pose proof (split_go_all (λ c, negb (Char.islower c)) "" (Str.upper name)
                eq_refl (all_upper_not_lower name)) as Hlow.
  fold (Str.split (Str.upper name)) in Hne, Hlow.
  unfold tokens_of. rewrite split_upper_nonempty. apply Forall_fmap.
  rewrite Forall_forall in Hne, Hlow. apply Forall_forall. intros t Ht.
  simpl. apply strip_chars_token; [by apply Hne|by apply Hlow].
Qed.

(** X5. [str.split] yields no empty string, so the test [if token] of the list
    comprehension lets every token through; and no token of a name within
    ASCII holds whitespace or a lower-case letter. *)
Theorem tokens_of_shape (name : string) :
  List.filter Str.nonempty (Str.split (Str.upper name))
  = Str.split (Str.upper name)
  ∧ (ascii_text name →
     Forall (λ token, Str.all token_char token = true) (tokens_of name)).
Proof.
  split; [apply split_upper_nonempty|intros _; apply tokens_of_token_chars].
Qed.

Lemma tokens_of_shape_witness :
  Forall (λ token, Str.all token_char token = true)
         (tokens_of "se3  (Sweden)").
Proof. exact (proj2 (tokens_of_shape "se3  (Sweden)") eq_refl). Defined.

Lemma scan_tokens_all p tokens g :
  Forall (λ token, Str.all p token = true) tokens →
  scan_tokens tokens = Some g → Str.all p g = true.
Proof.
  induction 1 as [|t ts Ht _ IH]; simpl; [done|].
  destruct (is_iso_token t); [by intros [= <-]|].
  destruct (is_zone_token t); [|done].
  intros [= <-]. by apply all_substring.
Qed.

(** X4. For a name within ASCII, a code read off the display name is two
    upper-case letters as it is: normalisation leaves it unchanged. Only
    the fallback on the EIC can answer in lower case. *)
Theorem name_code_normal (name g : string) :
  ascii_text name →
  scan_tokens (tokens_of name) = Some g →
  iso_alpha2 g ∧ normalise_iso (Some g) = Some g.
Proof.
  intros _ Hs. pose proof (scan_tokens_letters _ _ Hs) as [Hlen Halpha].
  pose proof (tokens_of_token_chars name) as Htok.
  pose proof (scan_tokens_all _ _ _ Htok Hs) as Hg.
  assert (Str.all Char.isupper g = true) as Hup.
  { clear Hlen Hs. induction g as [|c g IH]; simpl in *; [done|].
    apply andb_true_iff in Halpha as [Hc Ha].
    apply andb_true_iff in Hg as [Ht Hg].
    unfold token_char in Ht. apply andb_true_iff in Ht as [_ Hl].
    apply negb_true_iff in Hl. by rewrite char_upper_letter, IH. }
  split; [done|]. apply normalise_iso_iff. exists g. split_and!; try done.
  - by destruct g.
  - rewrite strip_letters by done. clear Hlen Hs Halpha Hg.
    unfold Str.upper. induction g as [|c g IH]; simpl in *; [done|].
    apply andb_true_iff in Hup as [Hc Hup]. rewrite <-IH by done. f_equal.
    revert Hc. clear. each_char c.
Qed.

Lemma name_code_normal_witness :
  iso_alpha2 "SE" ∧ normalise_iso (Some "SE") = Some "SE".
Proof. apply (name_code_normal "se3 (Sweden)" "SE"); reflexivity. Defined.

Example eic_fallback_lower_case :
  guess_iso "Germany" "10Yde-1234" = Some "de".
Proof. reflexivity. Qed.

(** ** When the run succeeds *)

Lemma merge_path_returns m input w :
  usable input.2 = true ↔ ∃ m' w', merge_path m input w = (Return m', w').
Proof.
  unfold merge_path. destruct input.2 as [| | |[]]; simpl; split;
    try done; try (intros _; by do 2 eexists); by intros (? & ? & ?).
Qed.

Lemma merge_existing_returns inputs m w :
  Forall (λ input, usable input.2 = true) inputs ↔
  ∃ m' w', merge_existing m inputs w = (Return m', w').
Proof.
  revert m w. induction inputs as [|x xs IH]; intros m w; simpl.
  { split; [intros _; by do 2 eexists|constructor]. }
  rewrite Forall_cons. unfold mbind, io_bind.
  destruct (merge_path m x w) as [[m1|e] w1] eqn:E.
  - rewrite <-(IH m1 w1). split; [by intros [_ ?]|]. intros H. split; [|done].
    apply (merge_path_returns m x w). by do 2 eexists.
  - split; [|by intros (? & ? & ?)]. intros [Hx _].
    apply (merge_path_returns m x w) in Hx as (? & ? & Hx). congruence.
Qed.

Lemma main_returns_0 args w :
  (∃ w', main args w = (Return 0%Z, w')) ↔
  (∃ root, source args = Xml root)
  ∧ (∀ inputs, arg_merge_existing args = Some inputs →
       Forall (λ input, usable input.2 = true) inputs)
  ∧ output_failure args = None.
Proof.
  unfold main. destruct (source args) as [exc|exc|root|exc].
  - split; [by intros [? ?]|by intros [[? ?] _]].
  - split; [by intros [? ?]|by intros [[? ?] _]].
  - unfold mbind, io_bind.
    destruct (warn_if_none (find_domains root) w) as [r0 w0] eqn:Hw.
    pose proof (warn_if_none_streams _ _ _ _ Hw) as (-> & _ & _).
    split.
    + intros [w' H]. split; [by eexists|].
      destruct (build _ _ _ w0) as [[result|e] w1] eqn:Hb; [|done].
      destruct (output_failure args); [done|]. split; [|done].
      intros inputs Hm. revert Hb. unfold build. rewrite Hm.
      destruct inputs as [|x xs]; [done|]. intros Hb.
      eapply (proj2 (merge_existing_returns _ _ _)). do 2 eexists. exact Hb.
    + intros (_ & Hm & ->). unfold build.
      destruct (arg_merge_existing args) as [[|x xs]|]; try by eexists.
      destruct (proj1 (merge_existing_returns (x :: xs)
                         (process_domains (normalise_iso (arg_default_iso args))
                            (find_domains root)) w0) (Hm _ eq_refl))
        as (m' & w1 & ->). by eexists.
  - split; [by intros [? ?]|by intros [[? ?] _]].
Qed.

Lemma main_reports_size args root w w' :
  source args = Xml root →
  main args w = (Return 0%Z, w') →
  ∃ result w0 w1,
    build (normalise_iso (arg_default_iso args)) (find_domains root)
      (arg_merge_existing args) w0 = (Return result, w1)
    ∧ stdout w'
      = stdout w ++ ["Wrote " +:+ pretty (size result)
                     +:+ " ISO entries to " +:+ arg_output args].
Proof.
  intros Hs. unfold main. rewrite Hs. unfold mbind, io_bind.
  destruct (warn_if_none (find_domains root) w) as [r0 w0] eqn:Hw.
  pose proof (warn_if_none_streams _ _ _ _ Hw) as (-> & Ho & _).
  destruct (build _ _ _ w0) as [[result|e] w1] eqn:Hb; [|done].
  pose proof (build_streams _ _ _ _ _ _ Hb) as [Ho1 _].
  destruct (output_failure args); [done|].
  intros [= <-]. simpl. exists result, w0, w1. split; [done|].
  by rewrite length_sorted_items, Ho1, Ho.
Qed.



(** ** Where the written codes come from *)

Lemma merge_path_bucket m input w m' w' k c :
  merge_path m input w = (Return m', w') →
  c ∈ bucket_of m' k ↔ c ∈ bucket_of m k ∨ merged_from [input] k c.
Proof.
  unfold merge_path, merged_from. destruct input as [path state]. simpl.
  destruct state as [|msg|exc|j].
  - intros [= <- _]. split; [by left|].
    intros [?|(i & ms & mb & ->%list_elem_of_singleton & [=] & _)]; done.
  - done.
  - intros [= <- _]. split; [by left|].
    intros [?|(i & ms & mb & ->%list_elem_of_singleton & [=] & _)]; done.
  - destruct j as [| | | | |members]; try done. intros [= <- _].
    rewrite foldl_merge_member_bucket. split.
    + intros [?|(mb & ? & ?)]; [by left|]. right.
      exists (path, Loaded (JObject members)), members, mb.
      split_and!; try done. by left.
    + intros [?|(i & ms & mb & ->%list_elem_of_singleton & [= <-] & ? & ?)];
        [by left|]. right. by exists mb.
Qed.

Lemma merge_existing_bucket inputs m w m' w' k c :
  merge_existing m inputs w = (Return m', w') →
  c ∈ bucket_of m' k ↔ c ∈ bucket_of m k ∨ merged_from inputs k c.
Proof.
  revert m w. induction inputs as [|x xs IH]; intros m w; simpl.
  { intros [= <- _]. split; [by left|].
    intros [?|(i & ms & mb & ?%elem_of_nil & _)]; done. }
  unfold mbind, io_bind.
  destruct (merge_path m x w) as [[m1|e] w1] eqn:E; [|done].
  intros H. rewrite (IH _ _ H), (merge_path_bucket _ _ _ _ _ _ _ E).
  unfold merged_from. split.
  - intros [[?|(i & ms & mb & ->%list_elem_of_singleton & ? & ? & ?)]
           |(i & ms & mb & ? & ? & ? & ?)]; [by left|right..].
    + exists x, ms, mb. split_and!; try done. by left.
    + exists i, ms, mb. split_and!; try done. by right.
  - intros [?|(i & ms & mb & [->|?]%elem_of_cons & ? & ? & ?)].
    + by left; left.
    + left. right. exists x, ms, mb. split_and!; try done. by left.
    + right. by exists i, ms, mb.
Qed.

(** X18. The codes of the written mapping are those of the Domain elements that
    are filed under a key and those the merge inputs hold, and no others:
    a code stands under a key of the finalised mapping exactly when a
    Domain element with that identifier is filed under the key, or a
    decoded object among the merge inputs has it, as a non-empty string, in
    a list whose key normalises to the key. *)
Theorem written_codes (default_iso : option string) (domains : list element)
    (merge : option (list (string * file_state))) (w w' : world)
    (result : area_map) (k c : string) :
  build default_iso domains merge w = (Return result, w') →
  (∃ codes, (k, codes) ∈ sorted_items result ∧ c ∈ codes) ↔
  (∃ domain, domain ∈ domains ∧ filed_under default_iso domain = Some k
             ∧ domain_eic domain = c)
  ∨ merged_from (default [] merge) k c.
Proof.
  intros Hb. rewrite <-sorted_items_elem, <-filed_under_bucket.
  revert Hb. unfold build. destruct merge as [[|x xs]|].
  - intros [= <- _]. split; [by left|].
    intros [?|(i & ms & mb & ?%elem_of_nil & _)]; done.
  - intros Hb. exact (merge_existing_bucket (x :: xs) _ _ _ _ k c Hb).
  - intros [= <- _]. split; [by left|].
    intros [?|(i & ms & mb & ?%elem_of_nil & _)]; done.
Qed.

Lemma written_codes_witness :
  (∃ codes,
     ("SE", codes)
       ∈ sorted_items (foldl merge_member
                         (process_domains None
                            [plain_domain "SE3 (Sweden)" "10Y1001A1001A46L"])
                         [("se", JArray [JString "A"])])
     ∧ "A" ∈ codes).
Proof.
  apply (written_codes None [plain_domain "SE3 (Sweden)" "10Y1001A1001A46L"]
           (Some [("old.json", Loaded (JObject [("se", JArray [JString "A"])]))])
           initial_world initial_world _ "SE" "A").
  - reflexivity.
  - right. exists ("old.json", Loaded (JObject [("se", JArray [JString "A"])])),
      [("se", JArray [JString "A"])], ("se", JArray [JString "A"]).
    split_and!; [by left|done|by left|]. split; [reflexivity|].
    exists [JString "A"]. split_and!; [done|by left|done].
Defined.

(** * The claims about the tokens, the fallback and the written text *)

(** ** Strings put together *)

Lemma append_cons c s t : String c s +:+ t = String c (s +:+ t).
Proof. reflexivity. Qed.

Lemma append_nil_l s : "" +:+ s = s.
Proof. reflexivity. Qed.

Lemma append_nil_r s : s +:+ "" = s.
Proof. induction s as [|c s IH]; [done|]. by rewrite append_cons, IH. Qed.

Lemma append_assoc a b c : (a +:+ b) +:+ c = a +:+ b +:+ c.
Proof. induction a as [|x a IH]; [done|]. by rewrite !append_cons, IH. Qed.

Lemma words_blank_cons c s l :
  Char.isspace c = true → words s l → words (String c s) l.
Proof.
  intros Hc. destruct 1 as [gap Hgap|gap word rest l Hgap Hw Hr Hl].
  - apply words_end. unfold blank in *. simpl. by rewrite Hc.
  - apply (words_next (String c gap)); try done.
    unfold blank in *. simpl. by rewrite Hc.
Qed.

Lemma split_go_words s :
  words s (Str.split_go "" s)
  ∧ ∀ cur, solid cur →
      ∃ run rest l,
        s = run +:+ rest
        ∧ Str.all (λ c, negb (Char.isspace c)) run = true
        ∧ at_boundary rest ∧ words rest l
        ∧ Str.split_go cur s = (cur +:+ run) :: l.
Proof.
  induction s as [|c s [IHblank IHword]].
  - split; [by apply words_end|]. intros cur [Hne Hcur].
    exists "", "", []. split_and!; try done; [by apply words_end|].
    simpl. rewrite append_nil_r. by destruct cur.
  - split.
    + simpl. destruct (Char.isspace c) eqn:Hc.
      * by apply words_blank_cons.
      * rewrite append_nil_l.
        destruct (IHword (String c "")) as (run & rest & l & -> & Hrun & Hb & Hl & ->).
        { split; [done|]. simpl. by rewrite Hc. }
        apply (words_next "" (String c run) rest l); try done.
        split; [done|]. simpl. by rewrite Hc.
    + intros cur [Hne Hcur]. simpl. destruct (Char.isspace c) eqn:Hc.
      * exists "", (String c s), (Str.split_go "" s). split_and!; try done.
        -- by apply words_blank_cons.
        -- rewrite append_nil_r. by destruct cur.
      * destruct (IHword (cur +:+ String c "")) as (run & rest & l & -> & Hrun & Hb & Hl & ->).
        { split; [by destruct cur|]. rewrite all_app, Hcur. simpl. by rewrite Hc. }
        exists (String c run), rest, l. split_and!; try done.
        -- simpl. by rewrite Hc.
        -- by rewrite append_assoc.
Qed.

Lemma split_words s : words s (Str.split s).
Proof. apply split_go_words. Qed.

Lemma all_ext p q s : (∀ c, p c = q c) → Str.all p s = Str.all q s.
Proof. intros H. induction s as [|c s IH]; simpl; [done|]. by rewrite H, IH. Qed.

Lemma lstrip_split p s :
  ∃ before, s = before +:+ Str.lstrip p s ∧ Str.all p before = true.
Proof.
  induction s as [|c s (before & IH & Hb)]; simpl.
  { by exists "". }
  destruct (p c) eqn:Hc.
  - exists (String c before). rewrite append_cons, <-IH. simpl.
    by rewrite Hc, Hb.
  - by exists "".
Qed.

Lemma rstrip_split p s :
  ∃ after, s = Str.rstrip p s +:+ after ∧ Str.all p after = true
           ∧ last_outside p (Str.rstrip p s).
Proof.
  induction s as [|c s (after & IH & Ha & Hl)]; simpl.
  { by exists "". }
  destruct (Str.rstrip p s) as [|d r] eqn:E.
  - rewrite append_nil_l in IH. subst after. destruct (p c) eqn:Hc.
    + exists (String c s). simpl. by rewrite Hc, Ha.
    + by exists s.
  - exists after. rewrite append_cons, <-IH. done.
Qed.

Lemma mem_brackets c : Str.mem c "()[]:/" = bracket c.
Proof. each_char c. Qed.

Lemma head_outside_ext p q s :
  (∀ c, p c = q c) → head_outside p s → head_outside q s.
Proof. intros H. destruct s; simpl; [done|]. by rewrite H. Qed.

Lemma last_outside_ext p q s :
  (∀ c, p c = q c) → last_outside p s → last_outside q s.
Proof.
  intros H. induction s as [|c s IH]; simpl; [done|].
  destruct s; [by rewrite H|done].
Qed.

Lemma strip_chars_trimmed raw : trimmed raw (Str.strip_chars "()[]:/" raw).
Proof.
  unfold Str.strip_chars, trimmed.
  set (p := λ c, Str.mem c "()[]:/").
  destruct (lstrip_split p raw) as (before & Hraw & Hb).
  destruct (rstrip_split p (Str.lstrip p raw)) as (after & Hl & Ha & Hlast).
  exists before, after. split_and!.
  - by rewrite <-Hl.
  - by rewrite <-(all_ext p bracket) by apply mem_brackets.
  - by rewrite <-(all_ext p bracket) by apply mem_brackets.
  - apply (head_outside_ext p); [apply mem_brackets|].
    apply rstrip_head_outside, lstrip_head_outside.
  - by apply (last_outside_ext p); [apply mem_brackets|].
Qed.

Lemma tokens_of_words name :
  ∃ raws, words (Str.upper name) raws ∧ Forall2 trimmed raws (tokens_of name).
Proof.
  exists (Str.split (Str.upper name)). split; [apply split_words|].
  unfold tokens_of. rewrite split_upper_nonempty.
  induction (Str.split (Str.upper name)) as [|raw raws IH]; simpl;
    constructor; [apply strip_chars_trimmed|done].
Qed.

Lemma is_iso_token_two_letters token : is_iso_token token = two_letters token.
Proof.
  unfold is_iso_token, Str.isalpha.
  destruct token as [|a [|b [|c rest]]]; simpl; try done.
  by rewrite andb_true_r.
Qed.

Lemma is_zone_token_letters_digit token :
  is_zone_token token = letters_digit token.
Proof.
  unfold is_zone_token, Str.isalpha, Str.isdigit_at, Str.slice.
  destruct token as [|a [|b [|c rest]]]; simpl; try done.
  by rewrite andb_true_r.
Qed.

Lemma code_of_token_leading token :
  is_iso_token token || is_zone_token token = true →
  code_of_token token = leading_two token.
Proof.
  unfold code_of_token. rewrite is_iso_token_two_letters, is_zone_token_letters_digit.
  destruct token as [|a [|b [|c rest]]]; simpl; try done.
  by destruct (_ && _).
Qed.

Lemma find_pointwise {A} (f g : A → bool) l :
  (∀ x, f x = g x) → List.find f l = List.find g l.
Proof. intros H. induction l as [|x l IH]; simpl; [done|]. by rewrite H, IH. Qed.





(** ** The layout of what is written *)

Ltac str_norm :=
  repeat (rewrite append_assoc || rewrite append_cons
          || rewrite append_nil_l || rewrite append_nil_r).

Lemma newline_LF : Json.newline = String Layout.LF "".
Proof. reflexivity. Qed.

Lemma text_cons line rest :
  Layout.text (line :: rest) = line +:+ String Layout.LF (Layout.text rest).
Proof. reflexivity. Qed.

Lemma text_app l1 l2 : Layout.text (l1 ++ l2) = Layout.text l1 +:+ Layout.text l2.
Proof.
  induction l1 as [|l l1 IH]; [done|].
  rewrite <-app_comm_cons, !text_cons, IH. by str_norm.
Qed.

Lemma concat_cons2 sep (x y : string) l :
  String.concat sep (x :: y :: l) = x +:+ sep +:+ String.concat sep (y :: l).
Proof. reflexivity. Qed.

Lemma code_lines_cons2 atom code c cs :
  Layout.code_lines atom (code :: c :: cs)
  = ("    " +:+ atom code +:+ ",") :: Layout.code_lines atom (c :: cs).
Proof. reflexivity. Qed.

Lemma code_lines_text atom code codes :
  "    " +:+ String.concat ("," +:+ Json.newline +:+ "    ")
                (atom <$> code :: codes) +:+ Json.newline
  = Layout.text (Layout.code_lines atom (code :: codes)).
Proof.
  revert code. induction codes as [|c cs IH]; intros code.
  - rewrite newline_LF. cbn [fmap list_fmap String.concat Layout.code_lines].
    rewrite text_cons. by str_norm.
  - rewrite code_lines_cons2, text_cons, <-IH, !fmap_cons, concat_cons2, newline_LF.
    by str_norm.
Qed.

Lemma item_lines_text comma item :
  "  " +:+ Json.dump_item item +:+ comma +:+ Json.newline
  = Layout.text (Layout.item_lines Json.dump_str comma item).
Proof.
  unfold Json.dump_item, Json.dump_codes, Layout.item_lines.
  destruct item.2 as [|code codes].
  - rewrite text_cons, newline_LF. by str_norm.
  - rewrite text_cons, text_app, text_cons, <-code_lines_text, newline_LF.
    by str_norm.
Qed.

Lemma items_lines_cons2 atom item i rest :
  Layout.items_lines atom (item :: i :: rest)
  = Layout.item_lines atom "," item ++ Layout.items_lines atom (i :: rest).
Proof. reflexivity. Qed.

Lemma items_lines_text item items :
  "  " +:+ String.concat ("," +:+ Json.newline +:+ "  ")
              (Json.dump_item <$> item :: items) +:+ Json.newline
  = Layout.text (Layout.items_lines Json.dump_str (item :: items)).
Proof.
  revert item. induction items as [|i rest IH]; intros item.
  - cbn [fmap list_fmap String.concat Layout.items_lines].
    rewrite <-item_lines_text. by str_norm.
  - rewrite items_lines_cons2, text_app, <-IH, <-item_lines_text,
      !fmap_cons, concat_cons2, newline_LF.
    by str_norm.
Qed.

Lemma dumps_layout items :
  Json.dumps items +:+ Json.newline
  = Layout.text (Layout.lines Json.dump_str items).
Proof.
  unfold Json.dumps, Layout.lines. destruct items as [|item rest]; [done|].
  rewrite text_cons, text_app, <-items_lines_text, text_cons, newline_LF.
  by str_norm.
Qed.

Lemma escape_plain c :
  Layout.plain c = true → Json.escape c = String c "".
Proof. each_char c. Qed.

Lemma dump_str_plain s :
  Str.all Layout.plain s = true → Json.dump_str s = Layout.quoted s.
Proof.
  intros H. unfold Json.dump_str, Layout.quoted. f_equal. f_equal.
  induction s as [|c s IH]; [done|]. simpl in H.
  apply andb_true_iff in H as [Hc Hs]. simpl.
  by rewrite escape_plain, IH.
Qed.


